(** * history-buffer: a bounded history of entries with a cursor

    Shallow embedding of [src/index.ts] (function [createHistory]) and
    the properties of its operations.

    The TypeScript function closes over five mutable variables
    ([_maxSize], [_defaultValue], [_validate], [_index], [_entries]);
    they become the fields of one record that every operation threads
    through a small state-and-exception monad.  A [throw] keeps whatever
    was written before it, as in JavaScript. *)

From Stdlib Require Import ZArith Lia String.
From Stdlib Require DecimalString DecimalPos DecimalZ.
From stdpp Require Import base tactics option list list_numbers.

Local Open Scope Z_scope.

(** ** Strict equality on entries

    [add] compares entries with [===].  On every JavaScript value that
    operator is symmetric; it is not reflexive ([NaN === NaN] is false),
    so reflexivity is never assumed globally. *)

Class StrictEq (T : Type) : Type := {
  strict_eq : T -> T -> bool;
  strict_eq_sym : forall x y : T, strict_eq x y = strict_eq y x
}.

(** ** Completions and the effect monad *)

Inductive completion (A : Type) : Type :=
| Normal (a : A)
| Throw (message : string).

Arguments Normal {A} a.
Arguments Throw {A} message.

Definition Eff (S A : Type) : Type := S -> completion A * S.

Definition ret {S A : Type} (a : A) : Eff S A :=
  fun s => (Normal a, s).

Definition bind {S A B : Type} (m : Eff S A) (k : A -> Eff S B) : Eff S B :=
  fun s =>
    match m s with
    | (Normal a, s') => k a s'
    | (Throw msg, s') => (Throw msg, s')
    end.

Definition throw {S A : Type} (msg : string) : Eff S A :=
  fun s => (Throw msg, s).

Definition gets {S A : Type} (f : S -> A) : Eff S A :=
  fun s => (Normal (f s), s).

Definition modify {S : Type} (f : S -> S) : Eff S unit :=
  fun s => (Normal tt, f s).

Declare Scope eff_scope.
Delimit Scope eff_scope with eff.

Notation "x <- m ;; k" := (bind m (fun x => k))
  (at level 100, m at next level, right associativity) : eff_scope.
Notation "m ;; k" := (bind m (fun _ => k))
  (at level 100, right associativity) : eff_scope.

Local Open Scope eff_scope.

(** The message of the only error the module throws. *)
Definition InvalidConfiguration : string := "Options must specify maxSize.".

(** ** Array primitives used by the source *)

(** [arr.length], as a JavaScript number. *)
Definition len {A : Type} (l : list A) : Z := Z.of_nat (List.length l).

(** [arr.shift()]: drops index 0; on an empty array it does nothing. *)
Definition shift {A : Type} (l : list A) : list A := drop 1 l.

(** [arr.push(x)]. *)
Definition push {A : Type} (x : A) (l : list A) : list A := l ++ [x].

(** [arr.splice(i, 1)]: removes index [i]; past the end it removes
    nothing. *)
Definition splice1 {A : Type} (i : nat) (l : list A) : list A := delete i l.

Section HistoryBuffer.

Context {T : Type} `{StrictEq T}.

(** ** Options and closure state *)

(** [IHistoryOptions<T>].  A field that is [undefined] (or, for
    [maxSize], [null]) is [None]. *)
Record IHistoryOptions : Type := {
  maxSize : option Z;
  defaultValue : option T;
  validate : option (T -> bool)
}.

(** The variables [createHistory] closes over.  [_maxSize] is declared
    without an initial value, so it is [undefined] ([None]) until
    [setOptions] assigns it; so is [_defaultValue]. *)
Record State : Type := {
  _maxSize : option Z;
  _defaultValue : option T;
  _validate : T -> bool;
  _index : Z;
  _entries : list T
}.

Definition set_maxSize (m : Z) (s : State) : State :=
  {| _maxSize := Some m; _defaultValue := _defaultValue s;
     _validate := _validate s; _index := _index s; _entries := _entries s |}.

Definition set_defaultValue (d : T) (s : State) : State :=
  {| _maxSize := _maxSize s; _defaultValue := Some d;
     _validate := _validate s; _index := _index s; _entries := _entries s |}.

Definition set_validate (v : T -> bool) (s : State) : State :=
  {| _maxSize := _maxSize s; _defaultValue := _defaultValue s;
     _validate := v; _index := _index s; _entries := _entries s |}.

Definition set_index (i : Z) (s : State) : State :=
  {| _maxSize := _maxSize s; _defaultValue := _defaultValue s;
     _validate := _validate s; _index := i; _entries := _entries s |}.

Definition set_entries (es : list T) (s : State) : State :=
  {| _maxSize := _maxSize s; _defaultValue := _defaultValue s;
     _validate := _validate s; _index := _index s; _entries := es |}.

Definition M : Type -> Type := Eff State.

(** ** [move] *)

Definition moveFirst : M bool :=
  entries <- gets _entries ;;
  if len entries =? 0 then
    modify (set_index (-1)) ;; ret false
  else
    modify (set_index 0) ;; ret true.

Definition moveLast : M bool :=
  entries <- gets _entries ;;
  if len entries =? 0 then
    modify (set_index (-1)) ;; ret false
  else
    modify (set_index (len entries - 1)) ;; ret true.

Definition movePastLast : M bool :=
  entries <- gets _entries ;;
  if len entries =? 0 then
    modify (set_index (-1)) ;; ret false
  else
    modify (set_index (len entries)) ;; ret true.

Definition movePrev : M bool :=
  index <- gets _index ;;
  if index <=? 0 then ret false
  else modify (set_index (index - 1)) ;; ret true.

Definition moveNext : M bool :=
  index <- gets _index ;;
  entries <- gets _entries ;;
  if index =? len entries then ret false
  else modify (set_index (index + 1)) ;; ret true.

(** ** [setOptions] *)

(** [if (typeof x !== "undefined") { assign x }]. *)
Definition when_defined {A : Type} (x : option A) (assign : A -> State -> State)
  : M unit :=
  match x with
  | Some a => modify (assign a)
  | None => ret tt
  end.

Definition setOptions (options : option IHistoryOptions) : M unit :=
  match options with
  | None => throw InvalidConfiguration
  | Some o =>
      match maxSize o with
      | None => throw InvalidConfiguration
      | Some _ =>
          when_defined (maxSize o) set_maxSize ;;
          when_defined (defaultValue o) set_defaultValue ;;
          when_defined (validate o) set_validate
      end
  end.

(** ** [current] and [length] *)

(** The result is [None] when the source returns [undefined]. *)
Definition current : M (option T) :=
  entries <- gets _entries ;;
  index <- gets _index ;;
  if (0 <? len entries) && (0 <=? index) && (index <? len entries) then
    ret (entries !! Z.to_nat index)
  else
    gets _defaultValue.

Definition length : M Z :=
  entries <- gets _entries ;;
  ret (len entries).

(** ** [add] *)

(** One iteration of the loop body at index [i]: [_entries[i]] past the
    end is [undefined], and whether or not that equals [entry] the
    [splice] there removes nothing. *)
Definition removeDupe_at (entry : T) (i : nat) (entries : list T) : list T :=
  match entries !! i with
  | Some x => if strict_eq x entry then splice1 i entries else entries
  | None => entries
  end.

(** [for (let i = ...; i >= 0; --i)], started at [i]. *)
Fixpoint removeDupes_from (entry : T) (i : nat) (entries : list T) : list T :=
  let entries' := removeDupe_at entry i entries in
  match i with
  | O => entries'
  | S i' => removeDupes_from entry i' entries'
  end.

(** The whole loop: [i] starts at [_entries.length]. *)
Definition removeDupes (entry : T) (entries : list T) : list T :=
  removeDupes_from entry (List.length entries) entries.

(** [_entries.length >= _maxSize]; against [undefined] the comparison
    is false. *)
Definition length_ge (entries : list T) (m : option Z) : bool :=
  match m with
  | Some m => m <=? len entries
  | None => false
  end.

Definition add (entry : T) : M unit :=
  valid <- gets _validate ;;
  if negb (valid entry) then
    entries <- gets _entries ;;
    modify (set_index (len entries))
  else
    entries <- gets _entries ;;
    modify (set_entries (removeDupes entry entries)) ;;
    entries <- gets _entries ;;
    m <- gets _maxSize ;;
    (if length_ge entries m
     then modify (set_entries (shift entries))
     else ret tt) ;;
    entries <- gets _entries ;;
    modify (set_entries (push entry entries)) ;;
    _ <- movePastLast ;;
    ret tt.

(** ** [createHistory] *)

(** The closure variables as declared, before [setOptions] runs.
    ([_entries] is initialised after the call in the source; the call
    does not touch it.) *)
Definition initial : State :=
  {| _maxSize := None; _defaultValue := None;
     _validate := fun _ => true; _index := -1; _entries := [] |}.

(** A throw in [setOptions] escapes [createHistory]: no buffer is
    returned. *)
Definition createHistory (options : option IHistoryOptions) : completion State :=
  match setOptions options initial with
  | (Normal _, s) => Normal s
  | (Throw msg, _) => Throw msg
  end.

(** ** Sequences of calls *)

(** The state a call leaves behind, whether it returned or threw. *)
Definition exec {A : Type} (m : M A) (s : State) : State := (m s).2.

(** The value a call returns, if it returns. *)
Definition result {A : Type} (m : M A) (s : State) : completion A := (m s).1.

(** [add] called on each element of [xs], in order. *)
Definition add_all (xs : list T) (s : State) : State :=
  foldl (fun s x => exec (add x) s) s xs.

(** The public surface of [IHistory<T>]. *)
Inductive Op : Type :=
| Add (entry : T)
| Options (options : option IHistoryOptions)
| Current
| Length
| MovePrev
| MoveNext
| MoveFirst
| MoveLast
| MovePastLast.

Inductive Value : Type :=
| VVoid
| VBool (b : bool)
| VNumber (n : Z)
| VEntry (e : option T).

Definition perform (op : Op) : M Value :=
  match op with
  | Add entry => add entry ;; ret VVoid
  | Options options => setOptions options ;; ret VVoid
  | Current => e <- current ;; ret (VEntry e)
  | Length => n <- length ;; ret (VNumber n)
  | MovePrev => b <- movePrev ;; ret (VBool b)
  | MoveNext => b <- moveNext ;; ret (VBool b)
  | MoveFirst => b <- moveFirst ;; ret (VBool b)
  | MoveLast => b <- moveLast ;; ret (VBool b)
  | MovePastLast => b <- movePastLast ;; ret (VBool b)
  end.

(** A caller may catch an error and go on, so a run continues from the
    state a throwing call left. *)
Definition run (ops : list Op) (s : State) : State :=
  foldl (fun s op => exec (perform op) s) s ops.

(** ** Predicates of the specification *)

(** No two positions hold entries that are [===]. *)
Definition distinct_entries (es : list T) : Prop :=
  forall (i j : nat) (x y : T),
    i <> j -> es !! i = Some x -> es !! j = Some y -> strict_eq x y = false.

(** The same, by recursion on the list. *)
Fixpoint no_equal_pair (es : list T) : Prop :=
  match es with
  | [] => True
  | x :: es' => Forall (fun y => strict_eq x y = false) es' /\ no_equal_pair es'
  end.

(** [x] differs from [entry]: what the loop of [add] keeps. *)
Definition differs_from (entry x : T) : Prop := strict_eq x entry = false.

#[global] Instance differs_from_dec entry x : Decision (differs_from entry x) :=
  decide (strict_eq x entry = false).

(** The call [m] returns [b], leaves the cursor at [c] and writes
    nothing else: [_entries] and the settings are as before. *)
Definition moves_cursor (m : M bool) (s : State) (b : bool) (c : Z) : Prop :=
  m s = (Normal b, set_index c s).

(** The options are absent, or their [maxSize] is. *)
Definition missing_maxSize (options : option IHistoryOptions) : Prop :=
  options = None \/ exists o, options = Some o /\ maxSize o = None.

(** The cursor is within [[-1, entries.length]]. *)
Definition cursor_in_range (s : State) : Prop :=
  -1 <= _index s <= len (_entries s).

(** What a valid [add] leaves in [_entries], written without the loop. *)
Definition entries_after_add (entry : T) (m : option Z) (es : list T) : list T :=
  let kept := filter (differs_from entry) es in
  (if length_ge kept m then drop 1 kept else kept) ++ [entry].

(** ** States named in the properties *)

(** The state a successful [setOptions] leaves: only fields the options
    supply are overwritten. *)
Definition configured (o : IHistoryOptions) (m : Z) (s : State) : State :=
  {| _maxSize := Some m;
     _defaultValue :=
       match defaultValue o with Some d => Some d | None => _defaultValue s end;
     _validate := match validate o with Some v => v | None => _validate s end;
     _index := _index s;
     _entries := _entries s |}.

(** Capacity and distinctness as one invariant of the stored entries. *)
Definition within (m : Z) (es : list T) : Prop :=
  len es <= m /\ no_equal_pair es.

End HistoryBuffer.

Arguments IHistoryOptions T : clear implicits.
Arguments State T : clear implicits.
Arguments Op T : clear implicits.
Arguments Value T : clear implicits.

(** ** Entries that are strings

    The tests and the demo page of the repository store strings, on
    which [===] compares contents. *)

#[global] Instance string_strict_eq : StrictEq string :=
  {| strict_eq := String.eqb; strict_eq_sym := String.eqb_sym |}.

(** [{ maxSize: n }]. *)
Definition capacity (n : Z) : IHistoryOptions string :=
  {| maxSize := Some n; defaultValue := None; validate := None |}.

(** [{ maxSize: n, validate: x => x.length >= 2 }], as in the tests. *)
Definition capacity_two_chars (n : Z) : IHistoryOptions string :=
  {| maxSize := Some n; defaultValue := None;
     validate := Some (fun x => (2 <=? String.length x)%nat) |}.

(** The buffer [createHistory({ maxSize: n })] returns. *)
Definition fresh (n : Z) : State string :=
  match createHistory (Some (capacity n)) with
  | Normal s => s
  | Throw _ => initial
  end.

Section Runs.

Context {T : Type} `{StrictEq T}.

(** ** Predicates on runs *)

(** [current()] and [length()]: the two operations that only read. *)
Definition is_read (op : Op T) : bool :=
  match op with
  | Current | Length => true
  | _ => false
  end.

(** An [options] call that, if it supplies [maxSize], supplies at most
    [bound]. *)
Definition configures_at_most (bound : Z) (op : Op T) : Prop :=
  match op with
  | Options (Some o) =>
      match maxSize o with
      | Some m => m <= bound
      | None => True
      end
  | _ => True
  end.

End Runs.

(** ** The test helper [addEntries]

    From the test file of the repository:
    [for (let initial = history.length() + 1, i = initial;
          i < initial + quantity; ++i) history.add("entry" + i)]. *)

(** ["entry" + i]: an integer is printed in decimal. *)
Definition entry_name (i : Z) : string :=
  ("entry" ++ DecimalString.NilZero.string_of_int (Z.to_int i))%string.

(** The loop from [i], with its test [i < bound]; [fuel] bounds the
    number of iterations. *)
Fixpoint addEntries_loop (fuel : nat) (i bound : Z) : M (T:=string) unit :=
  match fuel with
  | O => ret tt
  | S fuel' =>
      if i <? bound then
        add (entry_name i) ;;
        addEntries_loop fuel' (i + 1) bound
      else ret tt
  end.

(** [addEntries(history, quantity)] run for at most [fuel] iterations. *)
Definition addEntries (fuel : nat) (quantity : Z) : M (T:=string) unit :=
  n <- length ;;
  let initial := n + 1 in
  addEntries_loop fuel initial (initial + quantity).

(** ** The demo page

    The page creates one buffer with [{ maxSize: 10, defaultValue: "" }]
    and a [keypress] listener on the text field [cmdInput]. *)

Definition demo_options : IHistoryOptions string :=
  {| maxSize := Some 10; defaultValue := Some ""%string; validate := None |}.

(** What the listener reads and writes: the buffer and
    [cmdInput.value]. *)
Record Page : Type := {
  history : State string;
  cmdInput_value : string
}.

(** A call on [history]. *)
Definition on_history {A : Type} (m : M (T:=string) A) : Eff Page A :=
  fun p =>
    match m (history p) with
    | (r, h) => (r, {| history := h; cmdInput_value := cmdInput_value p |})
    end.

(** [cmdInput.value = v]: the field stores a string, so [undefined] is
    stored as its name. *)
Definition set_value (v : option string) (p : Page) : Page :=
  {| history := history p;
     cmdInput_value := match v with Some x => x | None => "undefined"%string end |}.

(** The listener, called with [evt.key].  It returns whether it went
    on to [evt.preventDefault()] and [cmdInput.select()], which it does
    exactly when it also rewrites the field. *)
Definition keypress (key : string) : Eff Page bool :=
  handled <-
    (if (key =? "Down")%string || (key =? "ArrowDown")%string then
       _ <- on_history moveNext ;; ret true
     else if (key =? "Up")%string || (key =? "ArrowUp")%string then
       _ <- on_history movePrev ;; ret true
     else if (key =? "Escape")%string then
       _ <- on_history movePastLast ;; ret true
     else if (key =? "Enter")%string then
       v <- gets cmdInput_value ;;
       on_history (add v) ;; ret true
     else ret false) ;;
  if handled : bool then
    v <- on_history current ;;
    modify (set_value v) ;;
    ret true
  else ret false.

(** What happens to the page: a key reaches the listener, or the user
    edits the text of the field. *)
Inductive Action : Type :=
| Press (key : string)
| Edit (text : string).

Definition act (a : Action) (p : Page) : Page :=
  match a with
  | Press key => (keypress key p).2
  | Edit text => {| history := history p; cmdInput_value := text |}
  end.

Definition play (actions : list Action) (p : Page) : Page :=
  foldl (fun p a => act a p) p actions.

(** The page once its script has run, the field holding [text]. *)
Definition demo_start (text : string) : Page :=
  {| history :=
       match createHistory (Some demo_options) with
       | Normal s => s
       | Throw _ => initial
       end;
     cmdInput_value := text |}.

(** The text [cmdInput.value = history.current()] stores. *)
Definition shown (h : State string) : string :=
  match result current h with
  | Normal (Some x) => x
  | Normal None => "undefined"%string
  | Throw _ => "undefined"%string
  end.

(** The [case] labels of the listener's [switch]. *)
Definition handled_keys : list string :=
  ["Down"; "ArrowDown"; "Up"; "ArrowUp"; "Escape"; "Enter"]%string.

(** The operation the [switch] selects for a key, [text] being the
    content of the field; [None] is the [default] label. *)
Definition key_op (key text : string) : option (Op string) :=
  if (key =? "Down")%string || (key =? "ArrowDown")%string then Some MoveNext
  else if (key =? "Up")%string || (key =? "ArrowUp")%string then Some MovePrev
  else if (key =? "Escape")%string then Some MovePastLast
  else if (key =? "Enter")%string then Some (Add text)
  else None.

(** The settings of the demo's buffer: it never calls [options]. *)
Definition demo_settings (h : State string) : Prop :=
  _maxSize h = Some 10 /\ _defaultValue h = Some ""%string /\
  forall x, _validate h x = true.

(** Unfolds the operations of the effect monad. *)
Ltac unfold_eff := unfold bind, gets, modify, ret, throw.

Section Properties.

Context {T : Type} `{StrictEq T}.

(** ** The deduplication loop *)

Lemma removeDupes_from_filter (entry : T) (i : nat) (es : list T) :
  removeDupes_from entry i es
  = filter (differs_from entry) (take (S i) es) ++ drop (S i) es.
Proof.
  revert es. induction i as [|i IH]; intros es.
  - destruct es as [|x es]; simpl; [reflexivity|].
    unfold removeDupe_at; simpl. rewrite take_0, drop_0.
    destruct (strict_eq x entry) eqn:E; simpl.
    + rewrite filter_cons_False, filter_nil by (unfold differs_from; congruence).
      reflexivity.
    + rewrite filter_cons_True, filter_nil by exact E. reflexivity.
  - cbn [removeDupes_from]. rewrite IH. unfold removeDupe_at.
    destruct (es !! S i) as [x|] eqn:L.
    + rewrite (take_S_r es (S i) x L), filter_app.
      destruct (strict_eq x entry) eqn:E.
      * unfold splice1. rewrite delete_take_drop.
        assert (Hlen : (S i <= List.length es)%nat)
          by (apply lookup_lt_Some in L; lia).
        rewrite take_app_le by (rewrite length_take; lia).
        rewrite take_take, Nat.min_id.
        rewrite drop_app_ge by (rewrite length_take; lia).
        rewrite length_take, Nat.min_l, Nat.sub_diag, drop_0 by lia.
        rewrite filter_cons_False, filter_nil by (unfold differs_from; congruence).
        rewrite app_nil_r. reflexivity.
      * rewrite filter_cons_True, filter_nil by exact E.
        rewrite <- app_assoc. simpl.
        rewrite <- (drop_S es x (S i) L). reflexivity.
    + apply lookup_ge_None_1 in L.
      rewrite (take_ge es (S (S i))), (take_ge es (S i)) by lia.
      rewrite (drop_ge es (S (S i))), (drop_ge es (S i)) by lia.
      reflexivity.
Qed.

(** The loop of [add] removes exactly the entries that are [===] to
    the new one and keeps the others in order. *)
Lemma removeDupes_filter (entry : T) (es : list T) :
  removeDupes entry es = filter (differs_from entry) es.
Proof.
  unfold removeDupes. rewrite removeDupes_from_filter.
  rewrite take_ge, drop_ge by lia. apply app_nil_r.
Qed.

(** ** What one [add] does *)

Lemma len_nonneg {A : Type} (l : list A) : 0 <= len l.
Proof. unfold len. lia. Qed.

Lemma len_app_one {A : Type} (l : list A) (x : A) : len (l ++ [x]) = len l + 1.
Proof. unfold len. rewrite length_app. simpl. lia. Qed.

Lemma add_invalid (entry : T) (s : State T) :
  _validate s entry = false ->
  add entry s = (Normal tt, set_index (len (_entries s)) s).
Proof.
  intros Hv. unfold add; unfold_eff. simpl. rewrite Hv. reflexivity.
Qed.

Lemma add_valid (entry : T) (s : State T) :
  _validate s entry = true ->
  add entry s =
    (Normal tt,
     let es := entries_after_add entry (_maxSize s) (_entries s) in
     set_index (len es) (set_entries es s)).
Proof.
  intros Hv. unfold add; unfold_eff. simpl. rewrite Hv. simpl.
  rewrite removeDupes_filter. unfold entries_after_add, shift, push.
  set (kept := filter (differs_from entry) (_entries s)).
  assert (Hne : forall l : list T, (len (l ++ [entry]) =? 0) = false).
  { intros l. rewrite len_app_one. pose proof (len_nonneg l). lia. }
  destruct (length_ge kept (_maxSize s)); simpl;
    unfold movePastLast; unfold_eff; simpl;
    rewrite Hne; reflexivity.
Qed.

Lemma add_entries_valid (entry : T) (s : State T) :
  _validate s entry = true ->
  _entries (exec (add entry) s)
  = entries_after_add entry (_maxSize s) (_entries s).
Proof. intros Hv. unfold exec. rewrite add_valid by exact Hv. reflexivity. Qed.

(** While fewer than [m] entries remain after the removal, nothing is
    evicted. *)
Lemma entries_after_add_room (entry : T) (m : Z) (es : list T) :
  len (filter (differs_from entry) es) < m ->
  entries_after_add entry (Some m) es = filter (differs_from entry) es ++ [entry].
Proof.
  intros Hlt. unfold entries_after_add, length_ge.
  destruct (Z.leb_spec m (len (filter (differs_from entry) es))); [lia|].
  reflexivity.
Qed.

Lemma length_result (s : State T) :
  result length s = Normal (len (_entries s)).
Proof. reflexivity. Qed.

(** [add] never throws. *)
Lemma add_returns (entry : T) (s : State T) : result (add entry) s = Normal tt.
Proof.
  unfold result. destruct (_validate s entry) eqn:Hv.
  - rewrite add_valid by exact Hv. reflexivity.
  - rewrite add_invalid by exact Hv. reflexivity.
Qed.

Lemma add_all_snoc (xs : list T) (x : T) (s : State T) :
  add_all (xs ++ [x]) s = exec (add x) (add_all xs s).
Proof. unfold add_all. rewrite foldl_app. reflexivity. Qed.

(** ** Lists without equal pairs *)

Lemma distinct_entries_no_equal_pair (es : list T) :
  distinct_entries es <-> no_equal_pair es.
Proof.
  induction es as [|x es IH]; simpl.
  - split; [trivial|]. intros _ i j a b _ Hi. rewrite lookup_nil in Hi.
    discriminate.
  - split.
    + intros Hd. split.
      * apply Forall_lookup_2. intros j y Hj.
        apply (Hd 0%nat (S j) x y); [lia|reflexivity|exact Hj].
      * apply IH. intros i j a b Hij Hi Hj.
        apply (Hd (S i) (S j) a b); [lia|exact Hi|exact Hj].
    + intros [Hx Hes] i j a b Hij Hi Hj.
      destruct i as [|i], j as [|j]; simpl in Hi, Hj.
      * lia.
      * injection Hi as <-. exact (Forall_lookup_1 _ _ _ _ Hx Hj).
      * injection Hj as <-. rewrite strict_eq_sym.
        exact (Forall_lookup_1 _ _ _ _ Hx Hi).
      * apply IH in Hes. apply (Hes i j a b); [lia|exact Hi|exact Hj].
Qed.

Lemma no_equal_pair_sublist (l1 l2 : list T) :
  sublist l1 l2 -> no_equal_pair l2 -> no_equal_pair l1.
Proof.
  induction 1 as [|x l1 l2 Hs IH|x l1 l2 Hs IH]; simpl.
  - trivial.
  - intros [Hx Hl]. split; [|auto].
    rewrite Forall_forall in *. intros y Hy. apply Hx.
    eapply elem_of_sublist; eassumption.
  - intros [_ Hl]. auto.
Qed.

Lemma no_equal_pair_snoc (es : list T) (entry : T) :
  no_equal_pair es ->
  Forall (differs_from entry) es ->
  no_equal_pair (es ++ [entry]).
Proof.
  induction es as [|x es IH]; simpl; intros Hes Hd.
  - split; [constructor|trivial].
  - destruct Hes as [Hx Hes].
    apply Forall_cons in Hd as [Hxe Hd]. split; [|auto].
    apply Forall_app. split; [exact Hx|].
    constructor; [exact Hxe|constructor].
Qed.

Lemma kept_differ (entry : T) (es : list T) :
  Forall (differs_from entry) (filter (differs_from entry) es).
Proof.
  apply Forall_forall. intros x Hx.
  apply list_elem_of_filter in Hx. tauto.
Qed.

Lemma entries_after_add_sublist (entry : T) (m : option Z) (es : list T) :
  exists kept, kept `sublist_of` es /\
               Forall (differs_from entry) kept /\
               entries_after_add entry m es = kept ++ [entry].
Proof.
  unfold entries_after_add.
  set (kept := filter (differs_from entry) es).
  assert (Hs : kept `sublist_of` es) by apply sublist_filter.
  assert (Hd : Forall (differs_from entry) kept) by apply kept_differ.
  destruct (length_ge kept m).
  - exists (drop 1 kept). split; [|split; [|reflexivity]].
    + etrans; [apply sublist_drop|exact Hs].
    + rewrite Forall_forall in *. intros x Hx. apply Hd.
      eapply elem_of_sublist; [exact Hx|apply sublist_drop].
  - exists kept. auto.
Qed.

Lemma entries_after_add_distinct (entry : T) (m : option Z) (es : list T) :
  no_equal_pair es -> no_equal_pair (entries_after_add entry m es).
Proof.
  intros Hes.
  destruct (entries_after_add_sublist entry m es) as (kept & Hs & Hd & ->).
  apply no_equal_pair_snoc; [|exact Hd].
  eapply no_equal_pair_sublist; eassumption.
Qed.

(** With room for at least one entry and no more than [m] stored, one
    [add] stays within [m]. *)
Lemma entries_after_add_bounded (entry : T) (m : Z) (es : list T) :
  0 < m -> len es <= m -> len (entries_after_add entry (Some m) es) <= m.
Proof.
  intros Hm Hle. unfold entries_after_add.
  set (kept := filter (differs_from entry) es).
  assert (Hk : len kept <= len es).
  { unfold len, kept. pose proof (length_filter (differs_from entry) es). lia. }
  unfold length_ge. destruct (Z.leb_spec m (len kept)) as [Hge|Hlt];
    rewrite len_app_one.
  - unfold len in *. rewrite length_drop. lia.
  - lia.
Qed.

(** ** [setOptions] and [createHistory] *)

Lemma setOptions_supplied (o : IHistoryOptions T) (m : Z) (s : State T) :
  maxSize o = Some m ->
  setOptions (Some o) s = (Normal tt, configured o m s).
Proof.
  intros Hm. unfold setOptions, when_defined, configured; unfold_eff.
  rewrite Hm. destruct (defaultValue o), (validate o); reflexivity.
Qed.

Lemma setOptions_missing (options : option (IHistoryOptions T)) (s : State T) :
  (options ≫= maxSize) = None ->
  setOptions options s = (Throw InvalidConfiguration, s).
Proof.
  intros Hm. unfold setOptions. destruct options as [o|]; simpl in Hm.
  - rewrite Hm. reflexivity.
  - reflexivity.
Qed.

Lemma createHistory_supplied (o : IHistoryOptions T) (m : Z) :
  maxSize o = Some m ->
  createHistory (Some o) = Normal (configured o m initial).
Proof.
  intros Hm. unfold createHistory. rewrite (setOptions_supplied o m) by exact Hm.
  reflexivity.
Qed.

Lemma createHistory_inv (options : option (IHistoryOptions T)) (s : State T) :
  createHistory options = Normal s ->
  exists o m, options = Some o /\ maxSize o = Some m /\ s = configured o m initial.
Proof.
  intros Hc. destruct options as [o|].
  - destruct (maxSize o) as [m|] eqn:Hm.
    + rewrite (createHistory_supplied o m Hm) in Hc. injection Hc as <-.
      eauto.
    + unfold createHistory in Hc.
      rewrite setOptions_missing in Hc by (simpl; exact Hm). discriminate.
  - unfold createHistory in Hc.
    rewrite setOptions_missing in Hc by reflexivity. discriminate.
Qed.

(** ** Invariants of [add] *)

(** [add] writes [_entries] and [_index] only. *)
Lemma add_keeps_settings (entry : T) (s : State T) :
  _maxSize (exec (add entry) s) = _maxSize s /\
  _defaultValue (exec (add entry) s) = _defaultValue s /\
  _validate (exec (add entry) s) = _validate s.
Proof.
  unfold exec. destruct (_validate s entry) eqn:Hv.
  - rewrite add_valid by exact Hv. simpl. auto.
  - rewrite add_invalid by exact Hv. simpl. auto.
Qed.

Lemma add_all_keeps_settings (xs : list T) (s : State T) :
  _maxSize (add_all xs s) = _maxSize s /\
  _defaultValue (add_all xs s) = _defaultValue s /\
  _validate (add_all xs s) = _validate s.
Proof.
  induction xs as [|x xs IH] using rev_ind.
  - simpl. auto.
  - rewrite add_all_snoc.
    destruct (add_keeps_settings x (add_all xs s)) as (-> & -> & ->).
    exact IH.
Qed.

Lemma add_within (m : Z) (entry : T) (s : State T) :
  0 < m -> _maxSize s = Some m ->
  within m (_entries s) -> within m (_entries (exec (add entry) s)).
Proof.
  intros Hm Hs [Hle Hd]. unfold exec. destruct (_validate s entry) eqn:Hv.
  - rewrite add_valid by exact Hv. simpl. rewrite Hs. split.
    + apply entries_after_add_bounded; assumption.
    + apply entries_after_add_distinct; assumption.
  - rewrite add_invalid by exact Hv. simpl. split; assumption.
Qed.

Lemma add_all_within (m : Z) (xs : list T) (s : State T) :
  0 < m -> _maxSize s = Some m ->
  within m (_entries s) -> within m (_entries (add_all xs s)).
Proof.
  intros Hm Hs Hw. induction xs as [|x xs IH] using rev_ind.
  - exact Hw.
  - rewrite add_all_snoc. apply add_within; [exact Hm| |exact IH].
    destruct (add_all_keeps_settings xs s) as (-> & _). exact Hs.
Qed.

(** ** Adding distinct entries *)

Lemma filter_all (P : T -> Prop) `{!forall x, Decision (P x)} (l : list T) :
  Forall P l -> filter P l = l.
Proof.
  induction 1 as [|x l Hx _ IH]; [reflexivity|].
  rewrite filter_cons_True by exact Hx. rewrite IH. reflexivity.
Qed.

Lemma distinct_entries_snoc_inv (xs : list T) (x : T) :
  distinct_entries (xs ++ [x]) ->
  distinct_entries xs /\ Forall (differs_from x) xs.
Proof.
  intros Hd. split.
  - intros i j a b Hij Hi Hj.
    apply (Hd i j a b Hij); apply lookup_app_l_Some; assumption.
  - apply Forall_lookup_2. intros i y Hi.
    apply (Hd i (List.length xs) y x).
    + apply lookup_lt_Some in Hi. lia.
    + apply lookup_app_l_Some. exact Hi.
    + apply list_lookup_middle. reflexivity.
Qed.

(** Adding pairwise distinct valid entries to an empty buffer keeps the
    last [m] of them. *)
Lemma add_all_distinct (m : Z) (xs : list T) (s : State T) :
  0 < m -> _maxSize s = Some m -> _entries s = [] ->
  Forall (fun x => _validate s x = true) xs ->
  distinct_entries xs ->
  _entries (add_all xs s) = drop (List.length xs - Z.to_nat m) xs.
Proof.
  intros Hm Hs He. induction xs as [|x xs IH] using rev_ind; intros Hv Hd.
  - simpl. exact He.
  - apply Forall_app in Hv as [Hv Hx]. apply Forall_cons in Hx as [Hx _].
    apply distinct_entries_snoc_inv in Hd as [Hd Hdx].
    specialize (IH Hv Hd). rewrite add_all_snoc. unfold exec.
    destruct (add_all_keeps_settings xs s) as (Hms & _ & Hvs).
    rewrite add_valid by (rewrite Hvs; exact Hx). simpl.
    rewrite Hms, Hs, IH. unfold entries_after_add.
    set (k := (List.length xs - Z.to_nat m)%nat).
    rewrite filter_all.
    2:{ rewrite Forall_forall in *. intros y Hy. apply Hdx.
        eapply elem_of_sublist; [exact Hy|apply sublist_drop]. }
    rewrite length_app. simpl. unfold length_ge, len.
    rewrite length_drop.
    destruct (Z.leb_spec m (Z.of_nat (List.length xs - k))) as [Hge|Hlt].
    + rewrite drop_drop.
      rewrite drop_app_le by (subst k; lia).
      f_equal. f_equal. subst k. lia.
    + replace (List.length xs + 1 - Z.to_nat m)%nat with 0%nat by (subst k; lia).
      replace k with 0%nat by (subst k; lia).
      rewrite !drop_0. reflexivity.
Qed.

(** ** Cursor movement *)

Lemma set_index_same (s : State T) : set_index (_index s) s = s.
Proof. destruct s. reflexivity. Qed.

Lemma movePrev_spec (s : State T) :
  moves_cursor movePrev s (0 <? _index s)
    (if 0 <? _index s then _index s - 1 else _index s).
Proof.
  unfold moves_cursor, movePrev; unfold_eff.
  destruct (Z.leb_spec (_index s) 0), (Z.ltb_spec 0 (_index s)); try lia.
  - rewrite set_index_same. reflexivity.
  - reflexivity.
Qed.

Lemma moveNext_spec (s : State T) :
  moves_cursor moveNext s (negb (_index s =? len (_entries s)))
    (if _index s =? len (_entries s) then _index s else _index s + 1).
Proof.
  unfold moves_cursor, moveNext; unfold_eff.
  destruct (_index s =? len (_entries s)); simpl.
  - rewrite set_index_same. reflexivity.
  - reflexivity.
Qed.

Lemma len_zero_ltb {A : Type} (l : list A) : (len l =? 0) = negb (0 <? len l).
Proof. pose proof (len_nonneg l). lia. Qed.

Lemma moveFirst_spec (s : State T) :
  moves_cursor moveFirst s (0 <? len (_entries s))
    (if 0 <? len (_entries s) then 0 else -1).
Proof.
  unfold moves_cursor, moveFirst; unfold_eff.
  rewrite len_zero_ltb. destruct (0 <? len (_entries s)); reflexivity.
Qed.

Lemma moveLast_spec (s : State T) :
  moves_cursor moveLast s (0 <? len (_entries s))
    (if 0 <? len (_entries s) then len (_entries s) - 1 else -1).
Proof.
  unfold moves_cursor, moveLast; unfold_eff.
  rewrite len_zero_ltb. destruct (0 <? len (_entries s)); reflexivity.
Qed.

Lemma movePastLast_spec (s : State T) :
  moves_cursor movePastLast s (0 <? len (_entries s))
    (if 0 <? len (_entries s) then len (_entries s) else -1).
Proof.
  unfold moves_cursor, movePastLast; unfold_eff.
  rewrite len_zero_ltb. destruct (0 <? len (_entries s)); reflexivity.
Qed.

(** ** The cursor after each operation *)

Lemma add_cursor (entry : T) (s : State T) :
  _index (exec (add entry) s) = len (_entries (exec (add entry) s)).
Proof.
  unfold exec. destruct (_validate s entry) eqn:Hv.
  - rewrite add_valid by exact Hv. reflexivity.
  - rewrite add_invalid by exact Hv. reflexivity.
Qed.

Lemma setOptions_keeps_buffer (options : option (IHistoryOptions T)) (s : State T) :
  _entries (exec (setOptions options) s) = _entries s /\
  _index (exec (setOptions options) s) = _index s.
Proof.
  unfold exec. destruct (options ≫= maxSize) as [m|] eqn:Hm.
  - destruct options as [o|]; [|discriminate]. simpl in Hm.
    rewrite (setOptions_supplied o m) by exact Hm. simpl. auto.
  - rewrite setOptions_missing by exact Hm. simpl. auto.
Qed.

Lemma moves_cursor_exec (m : M bool) (s : State T) (b : bool) (c : Z) (v : bool -> Value T) :
  moves_cursor m s b c -> exec (r <- m ;; ret (v r)) s = set_index c s.
Proof. unfold moves_cursor, exec; unfold_eff. intros ->. reflexivity. Qed.

Lemma perform_cursor_in_range (op : Op T) (s : State T) :
  cursor_in_range s -> cursor_in_range (exec (perform op) s).
Proof.
  unfold cursor_in_range. intros Hr. pose proof (len_nonneg (_entries s)) as Hn.
  destruct op as [entry|options| | | | | | |]; cbn [perform].
  - replace (exec (add entry ;; ret VVoid) s) with (exec (add entry) s).
    + rewrite add_cursor. pose proof (len_nonneg (_entries (exec (add entry) s))).
      lia.
    + unfold exec; unfold_eff. pose proof (add_returns entry s) as Hret.
      unfold result in Hret. destruct (add entry s) as [c s']. simpl in *.
      rewrite Hret. reflexivity.
  - replace (exec (setOptions options ;; ret VVoid) s)
      with (exec (setOptions options) s).
    + destruct (setOptions_keeps_buffer options s) as [-> ->]. exact Hr.
    + unfold exec; unfold_eff. destruct (setOptions options s) as [[[]|msg] s'];
        reflexivity.
  - unfold exec, current; unfold_eff. simpl.
    destruct (_ && _); exact Hr.
  - exact Hr.
  - rewrite (moves_cursor_exec _ _ _ _ _ (movePrev_spec s)). simpl.
    destruct (Z.ltb_spec 0 (_index s)); lia.
  - rewrite (moves_cursor_exec _ _ _ _ _ (moveNext_spec s)). simpl.
    destruct (Z.eqb_spec (_index s) (len (_entries s))); lia.
  - rewrite (moves_cursor_exec _ _ _ _ _ (moveFirst_spec s)). simpl.
    destruct (Z.ltb_spec 0 (len (_entries s))); lia.
  - rewrite (moves_cursor_exec _ _ _ _ _ (moveLast_spec s)). simpl.
    destruct (Z.ltb_spec 0 (len (_entries s))); lia.
  - rewrite (moves_cursor_exec _ _ _ _ _ (movePastLast_spec s)). simpl.
    destruct (Z.ltb_spec 0 (len (_entries s))); lia.
Qed.

Lemma run_cursor_in_range (ops : list (Op T)) (s : State T) :
  cursor_in_range s -> cursor_in_range (run ops s).
Proof.
  revert s. induction ops as [|op ops IH]; intros s Hr; simpl.
  - exact Hr.
  - apply IH, perform_cursor_in_range, Hr.
Qed.

(** ** Properties of the specification *)

(** C1: on a buffer created with a positive [maxSize], after any
    sequence of [add] calls the number of entries is between 0 and
    [maxSize] and no two entries are equal. *)
Theorem add_sequence_bounded_distinct
    (o : IHistoryOptions T) (m : Z) (s0 : State T) (xs : list T) :
  createHistory (Some o) = Normal s0 ->
  maxSize o = Some m ->
  0 < m ->
  0 <= len (_entries (add_all xs s0)) <= m /\
  distinct_entries (_entries (add_all xs s0)).
Proof.
  intros Hc Hm Hpos.
  rewrite (createHistory_supplied o m Hm) in Hc. injection Hc as <-.
  destruct (add_all_within m xs (configured o m initial) Hpos eq_refl)
    as [Hle Hd].
  - split; [unfold len; simpl; lia|exact I].
  - split; [split; [apply len_nonneg|exact Hle]|].
    apply distinct_entries_no_equal_pair. exact Hd.
Qed.

(** C2: adding more than [maxSize] pairwise distinct valid entries to a
    fresh buffer with positive [maxSize] leaves exactly [maxSize]
    entries: the most recently added ones, in insertion order, the
    oldest having been evicted. *)
Theorem fifo_eviction
    (o : IHistoryOptions T) (m : Z) (s0 : State T) (xs : list T) :
  createHistory (Some o) = Normal s0 ->
  maxSize o = Some m ->
  0 < m ->
  Forall (fun x => _validate s0 x = true) xs ->
  distinct_entries xs ->
  m < len xs ->
  _entries (add_all xs s0) = drop (List.length xs - Z.to_nat m) xs /\
  len (_entries (add_all xs s0)) = m.
Proof.
  intros Hc Hm Hpos Hv Hd Hn.
  rewrite (createHistory_supplied o m Hm) in Hc. injection Hc as <-.
  rewrite (add_all_distinct m xs (configured o m initial) Hpos eq_refl eq_refl Hv Hd).
  split; [reflexivity|]. unfold len in *. rewrite length_drop. lia.
Qed.

(** C3: when no more than [maxSize] entries are stored (in particular
    when the buffer is not at capacity), adding a valid entry that is
    already present removes it from its place, keeps the other entries
    in their order, appends the entry at the end, does not lengthen the
    list and evicts no other entry.  In particular, for distinct valid
    [a] and [b], [add(a); add(b); add(b); add(a)] on a fresh buffer of
    capacity at least 2 leaves two entries. *)
Theorem re_add_moves_to_end :
  (forall (s : State T) (m : Z) (entry : T),
     _maxSize s = Some m ->
     len (_entries s) <= m ->
     _validate s entry = true ->
     (exists x, x ∈ _entries s /\ strict_eq x entry = true) ->
     let es' := _entries (exec (add entry) s) in
     es' = filter (differs_from entry) (_entries s) ++ [entry] /\
     len es' <= len (_entries s) /\
     (forall x, x ∈ _entries s -> differs_from entry x -> x ∈ es')) /\
  (forall (o : IHistoryOptions T) (m : Z) (s0 : State T) (a b : T),
     createHistory (Some o) = Normal s0 ->
     maxSize o = Some m ->
     2 <= m ->
     _validate s0 a = true -> _validate s0 b = true ->
     strict_eq a a = true -> strict_eq b b = true ->
     strict_eq a b = false ->
     _entries (add_all [a; b; b; a] s0) = [b; a] /\
     result length (add_all [a; b; b; a] s0) = Normal 2).
Proof.
  split.
  - intros s m entry Hs Hle Hv (x & Hin & Heq) es'. subst es'. unfold exec.
    rewrite add_valid by exact Hv. simpl. rewrite Hs. unfold entries_after_add.
    set (kept := filter (differs_from entry) (_entries s)).
    assert (Hlt : (List.length kept < List.length (_entries s))%nat).
    { apply (length_filter_lt _ _ x Hin). unfold differs_from. congruence. }
    assert (Hno : length_ge kept (Some m) = false).
    { unfold length_ge, len in *. lia. }
    rewrite Hno. split; [reflexivity|]. split.
    + rewrite len_app_one. unfold len. lia.
    + intros y Hy Hdy. apply elem_of_app. left.
      apply list_elem_of_filter. auto.
  - intros o m s0 a b Hc Hm Hge Ha Hb Haa Hbb Hab.
    rewrite (createHistory_supplied o m Hm) in Hc. injection Hc as <-.
    assert (Hba : strict_eq b a = false) by (rewrite strict_eq_sym; exact Hab).
    set (s0 := configured o m initial) in *.
    assert (Hs0 : _maxSize s0 = Some m) by reflexivity.
    set (s1 := exec (add a) s0).
    destruct (add_keeps_settings a s0) as (M1 & _ & V1). fold s1 in M1, V1.
    set (s2 := exec (add b) s1).
    destruct (add_keeps_settings b s1) as (M2 & _ & V2). fold s2 in M2, V2.
    set (s3 := exec (add b) s2).
    destruct (add_keeps_settings b s2) as (M3 & _ & V3). fold s3 in M3, V3.
    assert (E1 : _entries s1 = [a]).
    { unfold s1. rewrite add_entries_valid by exact Ha.
      rewrite Hs0, entries_after_add_room; [reflexivity|].
      simpl. rewrite filter_nil. unfold len. simpl. lia. }
    assert (E2 : _entries s2 = [a; b]).
    { unfold s2. rewrite add_entries_valid by (rewrite V1; exact Hb).
      rewrite M1, Hs0, E1.
      rewrite entries_after_add_room;
        rewrite filter_cons_True, filter_nil by exact Hab;
        [reflexivity|unfold len; simpl; lia]. }
    assert (E3 : _entries s3 = [a; b]).
    { unfold s3. rewrite add_entries_valid by (rewrite V2, V1; exact Hb).
      rewrite M2, M1, Hs0, E2.
      rewrite entries_after_add_room;
        rewrite filter_cons_True by exact Hab;
        rewrite filter_cons_False, filter_nil
          by (unfold differs_from; congruence);
        [reflexivity|unfold len; simpl; lia]. }
    assert (E : _entries (add_all [a; b; b; a] s0) = [b; a]).
    { change (add_all [a; b; b; a] s0) with (exec (add a) s3).
      rewrite add_entries_valid by (rewrite V3, V2, V1; exact Ha).
      rewrite M3, M2, M1, Hs0, E3.
      rewrite entries_after_add_room;
        rewrite filter_cons_False by (unfold differs_from; congruence);
        rewrite filter_cons_True, filter_nil by exact Hba;
        [reflexivity|unfold len; simpl; lia]. }
    split; [exact E|].
    rewrite length_result, E. reflexivity.
Qed.

(** C4: in every state (so in every state whose cursor is within
    [[-1, entries.length]]), [prev] returns true exactly when the cursor
    is positive and then decrements it; [next] returns true exactly when
    the cursor is not [entries.length] and then increments it; [first],
    [last] and [pastLast] return true exactly when the buffer is not
    empty and set the cursor to [0], [entries.length - 1] and
    [entries.length], or to [-1] when it is empty.  None of them writes
    anything but the cursor. *)
Theorem move_table (s : State T) :
  let c := _index s in
  let n := len (_entries s) in
  moves_cursor movePrev s (0 <? c) (if 0 <? c then c - 1 else c) /\
  moves_cursor moveNext s (negb (c =? n)) (if c =? n then c else c + 1) /\
  moves_cursor moveFirst s (0 <? n) (if 0 <? n then 0 else -1) /\
  moves_cursor moveLast s (0 <? n) (if 0 <? n then n - 1 else -1) /\
  moves_cursor movePastLast s (0 <? n) (if 0 <? n then n else -1).
Proof.
  cbv zeta. repeat split.
  - apply movePrev_spec.
  - apply moveNext_spec.
  - apply moveFirst_spec.
  - apply moveLast_spec.
  - apply movePastLast_spec.
Qed.

(** C5: after [add(e)], in any state and for any [e], the cursor equals
    [entries.length] and [current()] returns the default value; when
    [e] fails validation the entries are untouched. *)
Theorem add_resets_cursor (entry : T) (s : State T) :
  let s' := exec (add entry) s in
  result (add entry) s = Normal tt /\
  _index s' = len (_entries s') /\
  result current s' = Normal (_defaultValue s) /\
  (_validate s entry = false -> _entries s' = _entries s).
Proof.
  cbv zeta. split; [apply add_returns|]. split; [apply add_cursor|]. split.
  - pose proof (add_cursor entry s) as Hc.
    destruct (add_keeps_settings entry s) as (_ & Hd & _).
    unfold result, current; unfold_eff. cbn [fst snd].
    rewrite Hc, Z.ltb_irrefl, andb_false_r, Hd. reflexivity.
  - intros Hv. unfold exec. rewrite add_invalid by exact Hv. reflexivity.
Qed.

(** C8: from a fresh buffer, after any sequence of [add], [options],
    [current], [length] and [move] calls the cursor is within
    [[-1, entries.length]]. *)
Theorem cursor_always_in_range
    (options : option (IHistoryOptions T)) (s0 : State T) (ops : list (Op T)) :
  createHistory options = Normal s0 ->
  cursor_in_range (run ops s0).
Proof.
  intros Hc. apply run_cursor_in_range.
  apply createHistory_inv in Hc as (o & m & _ & _ & ->).
  unfold cursor_in_range, len. simpl. lia.
Qed.

(** C9: [createHistory] and [options] throw the missing-[maxSize] error
    exactly when the options are absent or lack [maxSize]; with any
    [maxSize] supplied they succeed; and no other operation throws. *)
Theorem only_missing_maxSize_throws :
  (forall options : option (IHistoryOptions T),
     createHistory options = Throw InvalidConfiguration
     <-> missing_maxSize options) /\
  (forall (options : option (IHistoryOptions T)) (s : State T),
     result (setOptions options) s = Throw InvalidConfiguration
     <-> missing_maxSize options) /\
  (forall (o : IHistoryOptions T) (m : Z),
     maxSize o = Some m ->
     (exists s : State T, createHistory (Some o) = Normal s) /\
     (forall s : State T, result (setOptions (Some o)) s = Normal tt)) /\
  (forall (op : Op T) (s : State T),
     (forall options, op <> Options options) ->
     exists v, result (perform op) s = Normal v).
Proof.
  assert (Hmiss : forall options : option (IHistoryOptions T), missing_maxSize options <-> options ≫= maxSize = None).
  { intros [o|]; unfold missing_maxSize; simpl.
    - split.
      + intros [Hn|(o' & Ho & Hm)]; [discriminate|]. injection Ho as <-.
        exact Hm.
      + intros Hm. right. eauto.
    - split; auto. }
  assert (Hset : forall (options : option (IHistoryOptions T)) (s : State T),
            result (setOptions options) s = Throw InvalidConfiguration
            <-> missing_maxSize options).
  { intros options s. rewrite Hmiss. unfold result.
    destruct (options ≫= maxSize) as [m|] eqn:Hm.
    - destruct options as [o|]; [|discriminate]. simpl in Hm.
      rewrite (setOptions_supplied o m) by exact Hm. simpl.
      split; discriminate.
    - rewrite setOptions_missing by exact Hm. simpl. tauto. }
  split; [|split; [exact Hset|split]].
  - intros options. rewrite <- (Hset options initial).
    unfold createHistory, result.
    destruct (setOptions options initial) as [[[]|msg] s']; simpl.
    + split; discriminate.
    + split; intros E; injection E as ->; reflexivity.
  - intros o m Hm. split.
    + eexists. apply (createHistory_supplied o m Hm).
    + intros s. unfold result. rewrite (setOptions_supplied o m) by exact Hm.
      reflexivity.
  - intros op s Hop. unfold result.
    destruct op as [entry|options| | | | | | |]; cbn [perform].
    + pose proof (add_returns entry s) as Hr. unfold result in Hr.
      unfold_eff. destruct (add entry s) as [c s']. simpl in Hr.
      rewrite Hr. eauto.
    + destruct (Hop options eq_refl).
    + unfold current; unfold_eff. simpl. destruct (_ && _); simpl; eauto.
    + eexists. reflexivity.
    + unfold bind. rewrite (movePrev_spec s). eexists. reflexivity.
    + unfold bind. rewrite (moveNext_spec s). eexists. reflexivity.
    + unfold bind. rewrite (moveFirst_spec s). eexists. reflexivity.
    + unfold bind. rewrite (moveLast_spec s). eexists. reflexivity.
    + unfold bind. rewrite (movePastLast_spec s). eexists. reflexivity.
Qed.

(** C10: a call of [options] that throws leaves every closure variable
    as it was. *)
Theorem failed_reconfigure_keeps_state
    (options : option (IHistoryOptions T)) (s : State T) (msg : string) :
  result (setOptions options) s = Throw msg ->
  exec (setOptions options) s = s.
Proof.
  unfold result, exec. intros Ht.
  destruct (options ≫= maxSize) as [m|] eqn:Hm.
  - destruct options as [o|]; [|discriminate]. simpl in Hm.
    rewrite (setOptions_supplied o m) in Ht by exact Hm. discriminate.
  - rewrite setOptions_missing by exact Hm. reflexivity.
Qed.

End Properties.

Section Navigation.

Context {T : Type} `{StrictEq T}.

(** ** More on the deduplication loop *)

(** X1: the backwards [splice] loop of [add] removes every element
    that is [===] to the new entry, however many there are, and keeps
    all the others in their order. *)
Theorem removeDupes_removes_all_matches (entry : T) (es : list T) :
  removeDupes entry es = filter (differs_from entry) es /\
  removeDupes entry es `sublist_of` es /\
  (forall x, x ∈ removeDupes entry es <-> x ∈ es /\ strict_eq x entry = false).
Proof.
  rewrite removeDupes_filter. split; [reflexivity|]. split.
  - apply sublist_filter.
  - intros x. rewrite list_elem_of_filter. unfold differs_from. tauto.
Qed.

(** ** More on [options] *)

(** X2: [options] merges: a field the options omit keeps its value,
    whether or not the call succeeds, so a default value or a validator
    once set cannot be unset by omission; and applying the same options
    a second time changes nothing. *)
Theorem setOptions_merges (options : option (IHistoryOptions T)) (s : State T) :
  (options ≫= defaultValue = None ->
     _defaultValue (exec (setOptions options) s) = _defaultValue s) /\
  (options ≫= validate = None ->
     _validate (exec (setOptions options) s) = _validate s) /\
  exec (setOptions options) (exec (setOptions options) s)
  = exec (setOptions options) s.
Proof.
  unfold exec. destruct (options ≫= maxSize) as [m|] eqn:Hm.
  - destruct options as [o|]; [|discriminate]. simpl in Hm |- *.
    rewrite !(setOptions_supplied o m) by exact Hm. simpl.
    split; [|split].
    + intros ->. reflexivity.
    + intros ->. reflexivity.
    + unfold configured. simpl.
      destruct (defaultValue o), (validate o); reflexivity.
  - rewrite !setOptions_missing by exact Hm. simpl.
    rewrite ?setOptions_missing by exact Hm. auto.
Qed.

(** ** The fresh buffer *)

(** X3: a buffer just created is empty with the cursor at [-1]:
    [length()] is 0, [current()] is the configured default, and
    [prev], [first], [last] and [pastLast] return false.  [next]
    returns true once (the cursor goes from [-1] to [0]) although there
    is no entry to reach, and false after that. *)
Theorem fresh_buffer_observations (o : IHistoryOptions T) (m : Z) :
  maxSize o = Some m ->
  exists s0,
    createHistory (Some o) = Normal s0 /\
    _entries s0 = [] /\ _index s0 = -1 /\
    result length s0 = Normal 0 /\
    result current s0 = Normal (defaultValue o) /\
    result movePrev s0 = Normal false /\
    result moveFirst s0 = Normal false /\
    result moveLast s0 = Normal false /\
    result movePastLast s0 = Normal false /\
    result moveNext s0 = Normal true /\
    result current (exec moveNext s0) = Normal (defaultValue o) /\
    result moveNext (exec moveNext s0) = Normal false.
Proof.
  intros Hm. exists (configured o m initial).
  split; [apply createHistory_supplied, Hm|].
  unfold result, exec, configured, initial, length, current, movePrev,
    moveFirst, moveLast, movePastLast, moveNext; unfold_eff; simpl.
  destruct (defaultValue o); repeat split.
Qed.

(** ** Moving through the entries *)

Lemma run_cons (op : Op T) (ops : list (Op T)) (s : State T) :
  run (op :: ops) s = run ops (exec (perform op) s).
Proof. reflexivity. Qed.

Lemma exec_MovePrev (s : State T) :
  exec (perform MovePrev) s
  = set_index (if 0 <? _index s then _index s - 1 else _index s) s.
Proof. exact (moves_cursor_exec _ _ _ _ _ (movePrev_spec s)). Qed.

Lemma exec_MoveNext (s : State T) :
  exec (perform MoveNext) s
  = set_index (if _index s =? len (_entries s) then _index s else _index s + 1) s.
Proof. exact (moves_cursor_exec _ _ _ _ _ (moveNext_spec s)). Qed.

Lemma set_index_set_index (i j : Z) (s : State T) :
  set_index i (set_index j s) = set_index i s.
Proof. reflexivity. Qed.

Lemma run_prev (k : nat) (s : State T) :
  run (replicate k MovePrev) s
  = set_index (if _index s <=? 0 then _index s
               else Z.max 0 (_index s - Z.of_nat k)) s.
Proof.
  revert s. induction k as [|k IH]; intros s.
  - simpl. replace (if _index s <=? 0 then _ else _) with (_index s)
      by (destruct (Z.leb_spec (_index s) 0); lia).
    symmetry. apply set_index_same.
  - cbn [replicate]. rewrite run_cons, exec_MovePrev, IH.
    rewrite set_index_set_index. f_equal. simpl _index.
    destruct (Z.ltb_spec 0 (_index s)), (Z.leb_spec (_index s) 0); try lia.
    destruct (Z.leb_spec (_index s - 1) 0); lia.
Qed.

Lemma run_next (k : nat) (s : State T) :
  _index s <= len (_entries s) ->
  run (replicate k MoveNext) s
  = set_index (Z.min (len (_entries s)) (_index s + Z.of_nat k)) s.
Proof.
  revert s. induction k as [|k IH]; intros s Hle.
  - simpl. replace (Z.min _ _) with (_index s) by lia.
    symmetry. apply set_index_same.
  - cbn [replicate]. rewrite run_cons, exec_MoveNext, IH.
    + rewrite set_index_set_index. f_equal. simpl.
      destruct (Z.eqb_spec (_index s) (len (_entries s))); lia.
    + simpl. destruct (Z.eqb_spec (_index s) (len (_entries s))); lia.
Qed.

Lemma current_in_range (s : State T) :
  0 <= _index s < len (_entries s) ->
  result current s = Normal (_entries s !! Z.to_nat (_index s)).
Proof.
  intros Hr. unfold result, current; unfold_eff. cbn [fst].
  destruct (Z.ltb_spec 0 (len (_entries s))); [|lia].
  destruct (Z.leb_spec 0 (_index s)); [|lia].
  destruct (Z.ltb_spec (_index s) (len (_entries s))); [|lia].
  reflexivity.
Qed.

Lemma current_unselected (s : State T) :
  _index s < 0 \/ len (_entries s) <= _index s ->
  result current s = Normal (_defaultValue s).
Proof.
  intros Hr. unfold result, current; unfold_eff. cbn [fst].
  destruct (Z.ltb_spec 0 (len (_entries s)));
    destruct (Z.leb_spec 0 (_index s));
    destruct (Z.ltb_spec (_index s) (len (_entries s)));
    try reflexivity; lia.
Qed.

Lemma add_prev_current (entry : T) (s : State T) :
  _validate s entry = true ->
  result movePrev (exec (add entry) s) = Normal true /\
  result current (exec movePrev (exec (add entry) s)) = Normal (Some entry).
Proof.
  intros Hv. set (s1 := exec (add entry) s).
  destruct (entries_after_add_sublist entry (_maxSize s) (_entries s))
    as (kept & _ & _ & E).
  assert (He : _entries s1 = kept ++ [entry]).
  { unfold s1. rewrite add_entries_valid by exact Hv. exact E. }
  assert (Hi : _index s1 = len kept + 1).
  { unfold s1. rewrite add_cursor. fold s1. rewrite He. apply len_app_one. }
  pose proof (len_nonneg kept) as Hk.
  pose proof (movePrev_spec s1) as Hp. unfold moves_cursor in Hp.
  rewrite Hi in Hp.
  destruct (Z.ltb_spec 0 (len kept + 1)) as [_|]; [|lia].
  unfold result at 1. unfold exec. rewrite Hp. cbn [fst snd].
  split; [reflexivity|].
  rewrite current_in_range.
  - simpl. rewrite He.
    replace (Z.to_nat (len kept + 1 - 1)) with (List.length kept)
      by (unfold len; lia).
    rewrite list_lookup_middle by reflexivity. reflexivity.
  - simpl. rewrite He, len_app_one. lia.
Qed.

(** X4: after a valid [add(e)], in any state and whatever [maxSize]
    is, one [prev] succeeds and [current()] is then [e]. *)
Theorem add_then_prev_recalls (entry : T) (s : State T) :
  _validate s entry = true ->
  result movePrev (exec (add entry) s) = Normal true /\
  result current (exec movePrev (exec (add entry) s)) = Normal (Some entry).
Proof. apply add_prev_current. Qed.

(** X5: starting past the last entry of a non-empty buffer, [k >= 1]
    calls of [prev] select the [k]-th entry from the end, or the first
    entry once [k] exceeds the number of entries; a further [prev]
    succeeds exactly while the first entry has not been reached. *)
Theorem prev_walks_back (k : nat) (s : State T) :
  _index s = len (_entries s) ->
  _entries s <> [] ->
  (1 <= k)%nat ->
  let n := List.length (_entries s) in
  let s' := run (replicate k MovePrev) s in
  result current s' = Normal (_entries s !! (n - Nat.min k n)%nat) /\
  is_Some (_entries s !! (n - Nat.min k n)%nat) /\
  result movePrev s' = Normal (k <? n)%nat.
Proof.
  intros Hi Hne Hk n s'.
  assert (Hn : (0 < n)%nat).
  { unfold n. destruct (_entries s); [congruence|simpl; lia]. }
  assert (Hs' : s' = set_index (Z.of_nat (n - Nat.min k n)) s).
  { unfold s'. rewrite run_prev, Hi. unfold len. fold n.
    destruct (Z.leb_spec (Z.of_nat n) 0); [lia|]. f_equal. lia. }
  split; [|split].
  - rewrite Hs', current_in_range.
    + simpl. rewrite Nat2Z.id. reflexivity.
    + simpl. unfold len. fold n. lia.
  - apply lookup_lt_is_Some. fold n. lia.
  - rewrite Hs'. pose proof (movePrev_spec (set_index (Z.of_nat (n - Nat.min k n)) s)) as Hp.
    unfold moves_cursor in Hp. unfold result. rewrite Hp. simpl. f_equal.
    destruct (Nat.ltb_spec k n), (Z.ltb_spec 0 (Z.of_nat (n - Nat.min k n))); lia.
Qed.

(** X6: with the cursor within range, [k] calls of [next] advance it
    by [k] but never past [entries.length]; once it is there,
    [current()] is the default value and [next] returns false. *)
Theorem next_walks_forward (k : nat) (s : State T) :
  cursor_in_range s ->
  let s' := run (replicate k MoveNext) s in
  s' = set_index (Z.min (len (_entries s)) (_index s + Z.of_nat k)) s /\
  (len (_entries s) <= _index s + Z.of_nat k ->
     result current s' = Normal (_defaultValue s) /\
     result moveNext s' = Normal false).
Proof.
  intros [Hlo Hhi] s'. unfold s'. rewrite run_next by exact Hhi.
  split; [reflexivity|]. intros Hk.
  replace (Z.min _ _) with (len (_entries s)) by lia. split.
  - rewrite current_unselected; [reflexivity|]. simpl. lia.
  - pose proof (moveNext_spec (set_index (len (_entries s)) s)) as Hp.
    unfold moves_cursor in Hp. unfold result. rewrite Hp. simpl.
    rewrite Z.eqb_refl. reflexivity.
Qed.

(** X7: [next] undoes [prev] when the cursor is on an entry other than
    the first or is past the last, and [prev] undoes [next] when the
    cursor is on an entry. *)
Theorem prev_next_inverse (s : State T) :
  (0 < _index s <= len (_entries s) ->
     result movePrev s = Normal true /\
     exec moveNext (exec movePrev s) = s) /\
  (0 <= _index s < len (_entries s) ->
     result moveNext s = Normal true /\
     exec movePrev (exec moveNext s) = s).
Proof.
  pose proof (movePrev_spec s) as Hp. pose proof (moveNext_spec s) as Hn.
  unfold moves_cursor in Hp, Hn. unfold result, exec. split; intros Hr.
  - rewrite Hp. cbn [fst snd].
    destruct (Z.ltb_spec 0 (_index s)); [|lia]. split; [reflexivity|].
    pose proof (moveNext_spec (set_index (_index s - 1) s)) as Hn'.
    unfold moves_cursor in Hn'. rewrite Hn'. simpl.
    destruct (Z.eqb_spec (_index s - 1) (len (_entries s))); [lia|].
    replace (_index s - 1 + 1) with (_index s) by lia. destruct s; reflexivity.
  - rewrite Hn. cbn [fst snd].
    destruct (Z.eqb_spec (_index s) (len (_entries s))); [lia|].
    split; [reflexivity|].
    pose proof (movePrev_spec (set_index (_index s + 1) s)) as Hp'.
    unfold moves_cursor in Hp'. rewrite Hp'. simpl.
    destruct (Z.ltb_spec 0 (_index s + 1)); [|lia].
    replace (_index s + 1 - 1) with (_index s) by lia. destruct s; reflexivity.
Qed.

End Navigation.

Section RunInvariants.

Context {T : Type} `{StrictEq T}.

(** ** One [add], in any state *)

Lemma exec_seq_ret {A B : Type} (m : M A) (v : B) (s : State T) :
  exec (m ;; ret v) s = exec m s.
Proof.
  unfold exec; unfold_eff. destruct (m s) as [[a|msg] s']; reflexivity.
Qed.

Lemma exec_bind_ret {A B : Type} (m : M A) (f : A -> B) (s : State T) :
  exec (x <- m ;; ret (f x)) s = exec m s.
Proof.
  unfold exec; unfold_eff. destruct (m s) as [[a|msg] s']; reflexivity.
Qed.

Lemma add_entries_cases (entry : T) (s : State T) :
  _entries (exec (add entry) s) = _entries s \/
  _entries (exec (add entry) s)
  = entries_after_add entry (_maxSize s) (_entries s).
Proof.
  unfold exec. destruct (_validate s entry) eqn:Hv.
  - right. rewrite add_valid by exact Hv. reflexivity.
  - left. rewrite add_invalid by exact Hv. reflexivity.
Qed.

Lemma entries_after_add_length (entry : T) (m : Z) (es : list T) :
  let n' := len (entries_after_add entry (Some m) es) in
  1 <= n' /\ n' <= len es + 1 /\ n' <= Z.max (len es) (Z.max m 1).
Proof.
  cbv zeta. unfold entries_after_add.
  set (kept := filter (differs_from entry) es).
  assert (Hk : len kept <= len es).
  { unfold len, kept. pose proof (length_filter (differs_from entry) es). lia. }
  pose proof (len_nonneg kept) as Hk0.
  unfold length_ge. destruct (Z.leb_spec m (len kept)); rewrite len_app_one.
  - unfold len in *. rewrite length_drop. lia.
  - lia.
Qed.

(** X8: a valid [add] always leaves at least one entry, lengthens the
    list by at most one, and never leaves more than the largest of the
    previous length, [maxSize] and 1: it evicts one entry at most. *)
Theorem add_length_effect (entry : T) (m : Z) (s : State T) :
  _maxSize s = Some m ->
  _validate s entry = true ->
  let n' := len (_entries (exec (add entry) s)) in
  1 <= n' /\
  n' <= len (_entries s) + 1 /\
  n' <= Z.max (len (_entries s)) (Z.max m 1).
Proof.
  intros Hm Hv. rewrite add_entries_valid by exact Hv. rewrite Hm.
  apply entries_after_add_length.
Qed.

(** X9: adding a valid entry that no stored entry is [===] to appends
    it, after evicting the oldest entry exactly when [maxSize] or more
    entries are stored. *)
Theorem add_new_entry (entry : T) (m : Z) (s : State T) :
  _maxSize s = Some m ->
  _validate s entry = true ->
  Forall (differs_from entry) (_entries s) ->
  _entries (exec (add entry) s)
  = (if m <=? len (_entries s) then drop 1 (_entries s) else _entries s)
    ++ [entry].
Proof.
  intros Hm Hv Hd. rewrite add_entries_valid by exact Hv. rewrite Hm.
  unfold entries_after_add. rewrite (filter_all _ _ Hd). reflexivity.
Qed.

(** X10: with a positive [maxSize] and no more than [maxSize] entries
    stored, adding a valid entry twice in a row leaves the same state
    as adding it once (for an entry that is [===] to itself). *)
Theorem add_twice (entry : T) (m : Z) (s : State T) :
  _maxSize s = Some m ->
  0 < m ->
  len (_entries s) <= m ->
  _validate s entry = true ->
  strict_eq entry entry = true ->
  exec (add entry) (exec (add entry) s) = exec (add entry) s.
Proof.
  intros Hm Hpos Hle Hv Hrefl.
  destruct (add_keeps_settings entry s) as (Hm1 & _ & Hv1).
  set (s1 := exec (add entry) s) in *.
  assert (Hs1 : s1 = set_index (len (_entries s1)) (set_entries (_entries s1) s)).
  { unfold s1, exec. rewrite add_valid by exact Hv. reflexivity. }
  assert (He1 : _entries s1 = entries_after_add entry (Some m) (_entries s)).
  { unfold s1. rewrite add_entries_valid by exact Hv. rewrite Hm. reflexivity. }
  assert (Hfix : entries_after_add entry (Some m) (_entries s1) = _entries s1).
  { rewrite He1.
    destruct (entries_after_add_sublist entry (Some m) (_entries s))
      as (kept & Hsub & Hd & E).
    pose proof (entries_after_add_bounded entry m (_entries s) Hpos Hle) as Hb.
    rewrite E in Hb |- *. rewrite len_app_one in Hb.
    unfold entries_after_add.
    rewrite filter_app, (filter_all _ _ Hd).
    rewrite filter_cons_False, filter_nil, app_nil_r
      by (unfold differs_from; congruence).
    unfold length_ge. destruct (Z.leb_spec m (len kept)); [lia|]. reflexivity. }
  unfold exec at 1. rewrite add_valid by (rewrite Hv1; exact Hv).
  cbn [snd]. rewrite Hm1, Hm, Hfix. cbv zeta.
  rewrite Hs1 at 3 4. reflexivity.
Qed.

(** ** Invariants of every run *)

Lemma perform_entries (op : Op T) (s : State T) :
  _entries (exec (perform op) s) = _entries s \/
  exists entry,
    op = Add entry /\
    _entries (exec (perform op) s)
    = entries_after_add entry (_maxSize s) (_entries s).
Proof.
  destruct op as [entry|options| | | | | | |]; cbn [perform].
  - rewrite exec_seq_ret.
    destruct (add_entries_cases entry s) as [E|E]; [left; exact E|].
    right. exists entry. auto.
  - left. rewrite exec_seq_ret. apply setOptions_keeps_buffer.
  - left. rewrite exec_bind_ret. unfold exec, current; unfold_eff. simpl.
    destruct (_ && _); reflexivity.
  - left. reflexivity.
  - left. rewrite (moves_cursor_exec _ _ _ _ _ (movePrev_spec s)). reflexivity.
  - left. rewrite (moves_cursor_exec _ _ _ _ _ (moveNext_spec s)). reflexivity.
  - left. rewrite (moves_cursor_exec _ _ _ _ _ (moveFirst_spec s)). reflexivity.
  - left. rewrite (moves_cursor_exec _ _ _ _ _ (moveLast_spec s)). reflexivity.
  - left. rewrite (moves_cursor_exec _ _ _ _ _ (movePastLast_spec s)). reflexivity.
Qed.

Lemma run_snoc (ops : list (Op T)) (op : Op T) (s : State T) :
  run (ops ++ [op]) s = exec (perform op) (run ops s).
Proof. unfold run. rewrite foldl_app. reflexivity. Qed.

Lemma run_no_equal_pair
    (options : option (IHistoryOptions T)) (s0 : State T) (ops : list (Op T)) :
  createHistory options = Normal s0 ->
  no_equal_pair (_entries (run ops s0)).
Proof.
  intros Hc.
  apply createHistory_inv in Hc as (o & m & _ & _ & ->).
  induction ops as [|op ops IH] using rev_ind.
  - exact I.
  - rewrite run_snoc.
    destruct (perform_entries op (run ops (configured o m initial)))
      as [->|(entry & _ & ->)].
    + exact IH.
    + apply entries_after_add_distinct, IH.
Qed.

(** X11: whatever the configuration and however it is changed, after
    any sequence of operations on a fresh buffer no two stored entries
    are [===]. *)
Theorem entries_always_distinct
    (options : option (IHistoryOptions T)) (s0 : State T) (ops : list (Op T)) :
  createHistory options = Normal s0 ->
  distinct_entries (_entries (run ops s0)).
Proof.
  intros Hc. apply distinct_entries_no_equal_pair.
  exact (run_no_equal_pair options s0 ops Hc).
Qed.

Lemma perform_maxSize (bound : Z) (op : Op T) (s : State T) :
  configures_at_most bound op ->
  (exists m, _maxSize s = Some m /\ m <= bound) ->
  exists m, _maxSize (exec (perform op) s) = Some m /\ m <= bound.
Proof.
  intros Hop Hs.
  destruct op as [entry|options| | | | | | |]; cbn [perform].
  - rewrite exec_seq_ret. destruct (add_keeps_settings entry s) as (-> & _).
    exact Hs.
  - rewrite exec_seq_ret. unfold exec.
    destruct (options ≫= maxSize) as [m'|] eqn:Hm.
    + destruct options as [o|]; [|discriminate]. simpl in Hm, Hop.
      rewrite Hm in Hop.
      rewrite (setOptions_supplied o m') by exact Hm. simpl. eauto.
    + rewrite setOptions_missing by exact Hm. exact Hs.
  - rewrite exec_bind_ret. unfold exec, current; unfold_eff. simpl.
    destruct (_ && _); exact Hs.
  - exact Hs.
  - rewrite (moves_cursor_exec _ _ _ _ _ (movePrev_spec s)). exact Hs.
  - rewrite (moves_cursor_exec _ _ _ _ _ (moveNext_spec s)). exact Hs.
  - rewrite (moves_cursor_exec _ _ _ _ _ (moveFirst_spec s)). exact Hs.
  - rewrite (moves_cursor_exec _ _ _ _ _ (moveLast_spec s)). exact Hs.
  - rewrite (moves_cursor_exec _ _ _ _ _ (movePastLast_spec s)). exact Hs.
Qed.

Lemma run_length_bounded
    (bound : Z) (o : IHistoryOptions T) (m0 : Z) (s0 : State T)
    (ops : list (Op T)) :
  createHistory (Some o) = Normal s0 ->
  maxSize o = Some m0 ->
  m0 <= bound ->
  1 <= bound ->
  Forall (configures_at_most bound) ops ->
  len (_entries (run ops s0)) <= bound.
Proof.
  intros Hc Hm0 Hle Hb Hops.
  rewrite (createHistory_supplied o m0 Hm0) in Hc. injection Hc as <-.
  cut ((exists m, _maxSize (run ops (configured o m0 initial)) = Some m /\ m <= bound)
       /\ len (_entries (run ops (configured o m0 initial))) <= bound);
    [tauto|].
  induction ops as [|op ops IH] using rev_ind.
  - split; [exists m0; auto|]. unfold len. simpl. lia.
  - apply Forall_app in Hops as [Hops Hop]. apply Forall_cons in Hop as [Hop _].
    destruct (IH Hops) as [Hm Hlen]. rewrite run_snoc. split.
    + apply perform_maxSize; assumption.
    + destruct Hm as (m & Hm & Hmb).
      destruct (perform_entries op (run ops (configured o m0 initial)))
        as [->|(entry & _ & ->)]; [exact Hlen|].
      rewrite Hm.
      pose proof (entries_after_add_length entry m
                    (_entries (run ops (configured o m0 initial)))) as Hl.
      cbv zeta in Hl. lia.
Qed.

(** X12: if the [maxSize] given at creation and every [maxSize] given
    to [options] later are at most [bound], and [bound] is at least 1,
    the buffer never holds more than [bound] entries, whatever
    operations are interleaved. *)
Theorem length_bounded_by_largest_maxSize
    (bound : Z) (o : IHistoryOptions T) (m0 : Z) (s0 : State T)
    (ops : list (Op T)) :
  createHistory (Some o) = Normal s0 ->
  maxSize o = Some m0 ->
  m0 <= bound ->
  1 <= bound ->
  Forall (configures_at_most bound) ops ->
  len (_entries (run ops s0)) <= bound.
Proof. apply run_length_bounded. Qed.

(** X13: [current()] and [length()] never write: dropping every such
    call from a sequence of operations leaves the final state the
    same. *)
Theorem reads_do_not_matter (ops : list (Op T)) (s : State T) :
  run (filter (fun op => is_read op = false) ops) s = run ops s.
Proof.
  revert s. induction ops as [|op ops IH]; intros s; [reflexivity|].
  destruct (is_read op) eqn:Hr.
  - rewrite filter_cons_False by congruence. rewrite IH, run_cons.
    f_equal. destruct op; try discriminate.
    + cbn [perform]. rewrite exec_bind_ret.
      unfold exec, current; unfold_eff. simpl. destruct (_ && _); reflexivity.
    + reflexivity.
  - rewrite filter_cons_True by exact Hr. rewrite !run_cons. apply IH.
Qed.

End RunInvariants.

(** ** The test helper *)

Lemma to_int_proper (z : Z) :
  Z.to_int z <> Decimal.Pos Decimal.Nil /\ Z.to_int z <> Decimal.Neg Decimal.Nil.
Proof.
  destruct z as [|p|p]; simpl; split; try discriminate;
    intros E; injection E as E; exact (DecimalPos.Unsigned.to_uint_nonnil p E).
Qed.

Lemma entry_name_inj (i j : Z) : entry_name i = entry_name j -> i = j.
Proof.
  unfold entry_name. intros E. simpl in E. injection E as E.
  apply (f_equal DecimalString.NilZero.int_of_string) in E.
  destruct (to_int_proper i) as [Hi1 Hi2], (to_int_proper j) as [Hj1 Hj2].
  rewrite !DecimalString.NilZero.isi in E by assumption.
  injection E as E. apply DecimalZ.to_int_inj, E.
Qed.

Lemma add_run {T : Type} `{StrictEq T} (entry : T) (s : State T) :
  add entry s = (Normal tt, exec (add entry) s).
Proof.
  pose proof (add_returns entry s) as Hr. unfold result, exec in *.
  destruct (add entry s) as [c s1]. simpl in *. subst c. reflexivity.
Qed.

Lemma addEntries_loop_adds (fuel : nat) (i q : Z) (s : State string) :
  (Z.to_nat q <= fuel)%nat ->
  addEntries_loop fuel i (i + q) s
  = (Normal tt, add_all (entry_name <$> seqZ i q) s).
Proof.
  revert i q s. induction fuel as [|fuel IH]; intros i q s Hf.
  - rewrite seqZ_nil by lia. reflexivity.
  - cbn [addEntries_loop]. destruct (Z.ltb_spec i (i + q)) as [Hlt|Hge].
    + rewrite seqZ_cons by lia. cbn [fmap list_fmap add_all foldl].
      unfold bind at 1. rewrite add_run.
      replace (i + q) with (Z.succ i + Z.pred q) by lia.
      replace (i + 1) with (Z.succ i) by lia.
      rewrite IH by lia. reflexivity.
    + rewrite seqZ_nil by lia. reflexivity.
Qed.

Lemma drop_seqZ (k : nat) (a q : Z) :
  Z.of_nat k <= q ->
  drop k (seqZ a q) = seqZ (a + Z.of_nat k) (q - Z.of_nat k).
Proof.
  intros Hk. replace q with (Z.of_nat k + (q - Z.of_nat k)) at 1 by lia.
  rewrite seqZ_app by lia. apply drop_app_length'.
  rewrite length_seqZ. lia.
Qed.

Lemma entry_names_distinct (a q : Z) :
  distinct_entries (entry_name <$> seqZ a q).
Proof.
  intros i j x y Hij Hi Hj. rewrite list_lookup_fmap in Hi, Hj.
  destruct (seqZ a q !! i) as [zi|] eqn:Ei; [|discriminate].
  destruct (seqZ a q !! j) as [zj|] eqn:Ej; [|discriminate].
  simpl in Hi, Hj. injection Hi as <-. injection Hj as <-.
  apply lookup_seqZ in Ei as [-> _]. apply lookup_seqZ in Ej as [-> _].
  apply String.eqb_neq. intros E. apply entry_name_inj in E. lia.
Qed.

Lemma fresh_settings (m : Z) :
  _maxSize (fresh m) = Some m /\ _entries (fresh m) = [] /\
  _index (fresh m) = -1 /\ _defaultValue (fresh m) = None /\
  forall x, _validate (fresh m) x = true.
Proof. repeat split. Qed.

Lemma addEntries_run (fuel : nat) (quantity : Z) (s : State string) :
  (Z.to_nat quantity <= fuel)%nat ->
  addEntries fuel quantity s
  = (Normal tt,
     add_all (entry_name <$> seqZ (len (_entries s) + 1) quantity) s).
Proof.
  intros Hf. unfold addEntries, length; unfold_eff.
  apply addEntries_loop_adds, Hf.
Qed.

(** X14: the test helper [addEntries(history, quantity)], given at
    least [quantity] iterations, returns normally after calling [add]
    on ["entry" + i] for [i] from [length() + 1] upwards, [quantity]
    times in order ([length()] being read once, before the loop). *)
Theorem addEntries_adds_next_names (fuel : nat) (quantity : Z) (s : State string) :
  (Z.to_nat quantity <= fuel)%nat ->
  addEntries fuel quantity s
  = (Normal tt,
     add_all (entry_name <$> seqZ (len (_entries s) + 1) quantity) s).
Proof. apply addEntries_run. Qed.

(** X15: on a fresh buffer with positive [maxSize] and no validator,
    [addEntries(history, quantity)] leaves the last
    [min(quantity, maxSize)] of the names [entry1 .. entry<quantity>],
    so [length()] is [min(quantity, maxSize)]. *)
Theorem addEntries_on_fresh (fuel : nat) (m quantity : Z) :
  0 < m ->
  0 <= quantity ->
  (Z.to_nat quantity <= fuel)%nat ->
  let s := exec (addEntries fuel quantity) (fresh m) in
  let kept := Z.min quantity m in
  _entries s = entry_name <$> seqZ (quantity - kept + 1) kept /\
  result length s = Normal kept.
Proof.
  intros Hm Hq Hf s kept.
  destruct (fresh_settings m) as (Hms & He & _ & _ & Hv).
  assert (Hs : s = add_all (entry_name <$> seqZ 1 quantity) (fresh m)).
  { unfold s, exec. rewrite addEntries_run by exact Hf.
    rewrite He. reflexivity. }
  assert (E : _entries s = entry_name <$> seqZ (quantity - kept + 1) kept).
  { rewrite Hs. rewrite (add_all_distinct m _ _ Hm Hms He).
    - rewrite length_fmap, length_seqZ, <- fmap_drop.
      rewrite drop_seqZ by lia. f_equal. unfold kept. f_equal; lia.
    - apply Forall_forall. intros x _. apply Hv.
    - apply entry_names_distinct. }
  split; [exact E|].
  rewrite length_result, E. unfold len. rewrite length_fmap, length_seqZ.
  f_equal. unfold kept. lia.
Qed.

(** ** The demo page *)

Lemma current_run (h : State string) :
  current h = (result current h, h).
Proof.
  unfold result, current; unfold_eff. simpl. destruct (_ && _); reflexivity.
Qed.

Lemma current_returns (h : State string) :
  exists v, result current h = Normal v.
Proof.
  unfold result, current; unfold_eff. simpl. destruct (_ && _); simpl; eauto.
Qed.

Lemma refresh_run (p : Page) :
  (v <- on_history current ;; modify (set_value v) ;; ret true) p
  = (Normal true,
     {| history := history p; cmdInput_value := shown (history p) |}).
Proof.
  unfold on_history, shown; unfold_eff. rewrite current_run.
  destruct (current_returns (history p)) as [v ->]. destruct v; reflexivity.
Qed.

Lemma move_run (m : M (T:=string) bool) (h : State string) (b : bool) (c : Z) :
  moves_cursor m h b c -> m h = (Normal b, exec m h).
Proof. unfold moves_cursor, exec. intros ->. reflexivity. Qed.

Lemma keypress_run (key : string) (p : Page) :
  keypress key p =
  match key_op key (cmdInput_value p) with
  | Some op =>
      let h := exec (perform op) (history p) in
      (Normal true, {| history := h; cmdInput_value := shown h |})
  | None => (Normal false, p)
  end.
Proof.
  unfold keypress, key_op.
  destruct ((key =? "Down")%string || (key =? "ArrowDown")%string);
    [|destruct ((key =? "Up")%string || (key =? "ArrowUp")%string);
      [|destruct (key =? "Escape")%string; [|destruct (key =? "Enter")%string]]].
  - unfold bind at 1 2. unfold on_history at 1.
    rewrite (move_run _ _ _ _ (moveNext_spec (history p))). unfold ret at 1.
    rewrite refresh_run. cbn [perform history cmdInput_value].
    rewrite (moves_cursor_exec _ _ _ _ _ (moveNext_spec (history p))).
    unfold exec. rewrite (moveNext_spec (history p)). reflexivity.
  - unfold bind at 1 2. unfold on_history at 1.
    rewrite (move_run _ _ _ _ (movePrev_spec (history p))). unfold ret at 1.
    rewrite refresh_run. cbn [perform history cmdInput_value].
    rewrite (moves_cursor_exec _ _ _ _ _ (movePrev_spec (history p))).
    unfold exec. rewrite (movePrev_spec (history p)). reflexivity.
  - unfold bind at 1 2. unfold on_history at 1.
    rewrite (move_run _ _ _ _ (movePastLast_spec (history p))). unfold ret at 1.
    rewrite refresh_run. cbn [perform history cmdInput_value].
    rewrite (moves_cursor_exec _ _ _ _ _ (movePastLast_spec (history p))).
    unfold exec. rewrite (movePastLast_spec (history p)). reflexivity.
  - unfold bind at 1 2 3. unfold gets at 1. unfold on_history at 1.
    rewrite add_run. unfold ret at 1.
    rewrite refresh_run. cbn [perform history cmdInput_value].
    unfold exec at 3 4; unfold_eff. rewrite add_run. reflexivity.
  - reflexivity.
Qed.

Lemma perform_keeps_settings (op : Op string) (h : State string) :
  (forall o, op <> Options o) ->
  _maxSize (exec (perform op) h) = _maxSize h /\
  _defaultValue (exec (perform op) h) = _defaultValue h /\
  _validate (exec (perform op) h) = _validate h.
Proof.
  intros Hop. destruct op as [entry|options| | | | | | |]; cbn [perform].
  - rewrite exec_seq_ret. apply add_keeps_settings.
  - destruct (Hop options eq_refl).
  - rewrite exec_bind_ret. unfold exec, current; unfold_eff. simpl.
    destruct (_ && _); auto.
  - auto.
  - rewrite (moves_cursor_exec _ _ _ _ _ (movePrev_spec h)). auto.
  - rewrite (moves_cursor_exec _ _ _ _ _ (moveNext_spec h)). auto.
  - rewrite (moves_cursor_exec _ _ _ _ _ (moveFirst_spec h)). auto.
  - rewrite (moves_cursor_exec _ _ _ _ _ (moveLast_spec h)). auto.
  - rewrite (moves_cursor_exec _ _ _ _ _ (movePastLast_spec h)). auto.
Qed.

Lemma key_op_not_options (key text : string) (op : Op string) :
  key_op key text = Some op -> forall o, op <> Options o.
Proof.
  unfold key_op. intros E o.
  repeat match type of E with
         | (if ?c then _ else _) = _ => destruct c
         end; injection E as <- || discriminate E; discriminate.
Qed.

Lemma act_history (a : Action) (p : Page) :
  exists ops,
    history (act a p) = run ops (history p) /\
    Forall (fun op => forall o, op <> Options o) ops.
Proof.
  destruct a as [key|text]; simpl.
  - rewrite keypress_run.
    destruct (key_op key (cmdInput_value p)) as [op|] eqn:E.
    + exists [op]. split; [reflexivity|].
      constructor; [|constructor]. eapply key_op_not_options, E.
    + exists []. split; [reflexivity|constructor].
  - exists []. split; [reflexivity|constructor].
Qed.

Lemma run_app {T : Type} `{StrictEq T} (ops1 ops2 : list (Op T)) (s : State T) :
  run (ops1 ++ ops2) s = run ops2 (run ops1 s).
Proof. unfold run. apply foldl_app. Qed.

Lemma play_history (actions : list Action) (p : Page) :
  exists ops,
    history (play actions p) = run ops (history p) /\
    Forall (fun op => forall o, op <> Options o) ops.
Proof.
  induction actions as [|a actions IH] using rev_ind.
  - exists []. split; [reflexivity|constructor].
  - unfold play in *. rewrite foldl_app. simpl.
    destruct IH as (ops1 & E1 & F1).
    destruct (act_history a (foldl (fun p a => act a p) p actions))
      as (ops2 & E2 & F2).
    exists (ops1 ++ ops2). rewrite run_app, <- E1, <- E2.
    split; [reflexivity|]. apply Forall_app. auto.
Qed.

Lemma run_keeps_settings (ops : list (Op string)) (h : State string) :
  Forall (fun op => forall o, op <> Options o) ops ->
  _maxSize (run ops h) = _maxSize h /\
  _defaultValue (run ops h) = _defaultValue h /\
  _validate (run ops h) = _validate h.
Proof.
  induction ops as [|op ops IH] using rev_ind; intros Hops; [auto|].
  apply Forall_app in Hops as [Hops Hop]. apply Forall_cons in Hop as [Hop _].
  rewrite run_snoc.
  destruct (perform_keeps_settings op (run ops h) Hop) as (-> & -> & ->).
  exact (IH Hops).
Qed.

Lemma demo_start_history (text : string) :
  createHistory (Some demo_options) = Normal (history (demo_start text)).
Proof. reflexivity. Qed.

Lemma demo_reachable (text : string) (actions : list Action) :
  let h := history (play actions (demo_start text)) in
  len (_entries h) <= 10 /\
  distinct_entries (_entries h) /\
  cursor_in_range h /\
  demo_settings h.
Proof.
  cbv zeta.
  destruct (play_history actions (demo_start text)) as (ops & -> & Hops).
  pose proof (demo_start_history text) as Hc.
  split; [|split; [|split]].
  - apply (run_length_bounded 10 demo_options 10 _ ops Hc eq_refl); try lia.
    eapply Forall_impl; [exact Hops|]. intros op Hop.
    destruct op as [|[o|]| | | | | | |]; simpl; trivial.
    destruct (Hop (Some o) eq_refl).
  - apply distinct_entries_no_equal_pair.
    exact (run_no_equal_pair _ _ ops Hc).
  - apply run_cursor_in_range. unfold cursor_in_range, len. simpl. lia.
  - destruct (run_keeps_settings ops (history (demo_start text)) Hops)
      as (Hm & Hd & Hv).
    unfold demo_settings. rewrite Hm, Hd, Hv. repeat split.
Qed.

Lemma key_op_unhandled (key text : string) :
  key ∉ handled_keys -> key_op key text = None.
Proof.
  unfold handled_keys. rewrite !not_elem_of_cons.
  intros (H1 & H2 & H3 & H4 & H5 & H6 & _).
  apply String.eqb_neq in H1, H2, H3, H4, H5, H6.
  unfold key_op. rewrite H1, H2, H3, H4, H5, H6. reflexivity.
Qed.

Lemma key_op_handled (key text : string) :
  key ∈ handled_keys -> is_Some (key_op key text).
Proof.
  unfold handled_keys. rewrite !elem_of_cons, elem_of_nil.
  intros [->|[->|[->|[->|[->|[->|[]]]]]]]; vm_compute; eauto.
Qed.

Lemma shown_cases (h : State string) (d : string) :
  _defaultValue h = Some d ->
  shown h = d \/ shown h ∈ _entries h.
Proof.
  intros Hd. unfold shown.
  destruct (decide (0 <= _index h < len (_entries h))) as [Hr|Hr].
  - rewrite current_in_range by exact Hr.
    destruct (lookup_lt_is_Some_2 (_entries h) (Z.to_nat (_index h))) as [x E].
    { unfold len in Hr. lia. }
    rewrite E. right. eapply list_elem_of_lookup_2, E.
  - rewrite current_unselected by lia. rewrite Hd. left. reflexivity.
Qed.

Lemma act_press (key : string) (p : Page) (op : Op string) :
  key_op key (cmdInput_value p) = Some op ->
  act (Press key) p
  = {| history := exec (perform op) (history p);
       cmdInput_value := shown (exec (perform op) (history p)) |}.
Proof. intros E. simpl. rewrite keypress_run, E. reflexivity. Qed.

(** X17: on the demo page, whatever keys are pressed and whatever is
    typed, the buffer holds at most 10 entries, no two of them equal,
    the cursor stays within range, and the settings stay as created. *)
Theorem demo_history_invariant (text : string) (actions : list Action) :
  let h := history (play actions (demo_start text)) in
  len (_entries h) <= 10 /\
  distinct_entries (_entries h) /\
  cursor_in_range h /\
  demo_settings h.
Proof. apply demo_reachable. Qed.

(** X16: the demo's listener leaves the page untouched and does not
    prevent the default action for a key that is none of its six
    labels; for each of the six it prevents the default action and
    rewrites the field with [history.current()]. *)
Theorem demo_key_handling (key : string) (p : Page) :
  (key ∉ handled_keys -> keypress key p = (Normal false, p)) /\
  (key ∈ handled_keys ->
     exists p',
       keypress key p = (Normal true, p') /\
       cmdInput_value p' = shown (history p')).
Proof.
  rewrite keypress_run. split; intros Hk.
  - rewrite key_op_unhandled by exact Hk. reflexivity.
  - destruct (key_op_handled key (cmdInput_value p) Hk) as [op ->].
    eexists. split; reflexivity.
Qed.

Lemma enter_then_up (up : string) (p : Page) :
  up = "Up"%string \/ up = "ArrowUp"%string ->
  _validate (history p) (cmdInput_value p) = true ->
  cmdInput_value (play [Press "Enter"%string; Press up] p) = cmdInput_value p.
Proof.
  intros Hup Hv. unfold play. cbn [foldl].
  rewrite (act_press "Enter" p (Add (cmdInput_value p))) by reflexivity.
  rewrite (act_press up _ MovePrev) by (destruct Hup as [-> | ->]; reflexivity).
  cbn [history cmdInput_value perform]. rewrite exec_seq_ret, exec_bind_ret.
  unfold shown.
  destruct (add_prev_current (cmdInput_value p) (history p) Hv) as [_ ->].
  reflexivity.
Qed.

(** X18: on the demo page, pressing Enter and then Up (or ArrowUp)
    brings back into the field the text that was entered. *)
Theorem demo_enter_then_up_recalls (text up : string) (actions : list Action) :
  up = "Up"%string \/ up = "ArrowUp"%string ->
  let p := play actions (demo_start text) in
  cmdInput_value (play [Press "Enter"%string; Press up] p) = cmdInput_value p.
Proof.
  intros Hup p. apply enter_then_up; [exact Hup|].
  destruct (demo_reachable text actions) as (_ & _ & _ & _ & _ & Hv).
  apply Hv.
Qed.

Lemma shown_unselected (h : State string) (d : string) :
  _defaultValue h = Some d ->
  _index h < 0 \/ len (_entries h) <= _index h ->
  shown h = d.
Proof.
  intros Hd Hr. unfold shown. rewrite current_unselected by exact Hr.
  rewrite Hd. reflexivity.
Qed.

(** X19: on the demo page, Enter and Escape both leave the field
    empty. *)
Theorem demo_enter_and_escape_clear (text key : string) (actions : list Action) :
  key = "Enter"%string \/ key = "Escape"%string ->
  let p := play actions (demo_start text) in
  cmdInput_value (act (Press key) p) = ""%string.
Proof.
  intros Hk p.
  destruct (demo_reachable text actions) as (_ & _ & _ & _ & Hd & _).
  fold p in Hd. destruct Hk as [-> | ->].
  - rewrite (act_press "Enter" p (Add (cmdInput_value p))) by reflexivity.
    cbn [cmdInput_value perform]. rewrite exec_seq_ret.
    apply shown_unselected.
    + destruct (add_keeps_settings (cmdInput_value p) (history p)) as (_ & -> & _).
      exact Hd.
    + right. rewrite add_cursor. lia.
  - rewrite (act_press "Escape" p MovePastLast) by reflexivity.
    cbn [cmdInput_value perform].
    rewrite (moves_cursor_exec _ _ _ _ _ (movePastLast_spec (history p))).
    apply shown_unselected; [exact Hd|]. simpl.
    destruct (Z.ltb_spec 0 (len (_entries (history p)))); lia.
Qed.

(** X20: on the demo page, after a handled key the field holds a
    stored entry or is empty; it never holds the text of [undefined]
    unless that text was entered. *)
Theorem demo_field_shows_entry_or_nothing
    (text key : string) (actions : list Action) :
  key ∈ handled_keys ->
  let p' := play (actions ++ [Press key]) (demo_start text) in
  cmdInput_value p' = ""%string \/
  cmdInput_value p' ∈ _entries (history p').
Proof.
  intros Hk p'.
  destruct (demo_reachable text (actions ++ [Press key])) as (_ & _ & _ & _ & Hd & _).
  fold p' in Hd.
  assert (E : cmdInput_value p' = shown (history p')).
  { unfold p', play. rewrite foldl_app. cbn [foldl].
    set (p := foldl _ _ actions).
    destruct (key_op_handled key (cmdInput_value p) Hk) as [op E].
    rewrite (act_press key p op E). reflexivity. }
  rewrite E. apply shown_cases, Hd.
Qed.

(** ** The properties on string buffers *)

Local Open Scope string_scope.

(** The run of the repository's test "moves to the previous entry":
    capacity 2, two entries, then [prev] three times. *)
Example test_moves_to_previous_entry :
  let s := add_all ["entry1"; "entry2"] (fresh 2) in
  result current s = Normal None /\
  result current (run [MovePrev] s) = Normal (Some "entry2") /\
  result current (run [MovePrev; MovePrev] s) = Normal (Some "entry1") /\
  result current (run [MovePrev; MovePrev; MovePrev] s) = Normal (Some "entry1") /\
  result movePrev (run [MovePrev; MovePrev] s) = Normal false.
Proof. vm_compute. repeat split. Qed.

(** The test "preserves history order after removing duplicate". *)
Example test_preserves_order_after_duplicate :
  _entries
    (add_all ["entry1"; "entry2"; "entry3"; "entry4"; "entry5"; "entry6";
              "entry7"; "entry8"; "entry9"; "entry10"; "entry7"] (fresh 10))
  = ["entry1"; "entry2"; "entry3"; "entry4"; "entry5"; "entry6";
     "entry8"; "entry9"; "entry10"; "entry7"].
Proof. vm_compute. reflexivity. Qed.

(** The test "ignores entries shorter than 2 characters". *)
Example test_ignores_short_entries :
  let s0 := configured (capacity_two_chars 1) 1 initial in
  createHistory (Some (capacity_two_chars 1)) = Normal s0 /\
  result length (add_all ["x"] s0) = Normal 0 /\
  result length (add_all ["x"; "xx"] s0) = Normal 1.
Proof. vm_compute. repeat split. Qed.

Lemma add_sequence_bounded_distinct_witness :
  let es := _entries (add_all ["entry1"; "entry2"; "entry1"; "entry3"] (fresh 2)) in
  0 <= len es <= 2 /\ distinct_entries es.
Proof.
  apply (add_sequence_bounded_distinct (capacity 2) 2 (fresh 2));
    [reflexivity|reflexivity|lia].
Defined.

Lemma fifo_eviction_witness :
  _entries (add_all ["entry1"; "entry2"; "entry3"] (fresh 2))
  = ["entry2"; "entry3"] /\
  len (_entries (add_all ["entry1"; "entry2"; "entry3"] (fresh 2))) = 2.
Proof.
  apply (fifo_eviction (capacity 2) 2 (fresh 2) ["entry1"; "entry2"; "entry3"]).
  - reflexivity.
  - reflexivity.
  - lia.
  - repeat constructor.
  - apply distinct_entries_no_equal_pair. simpl. repeat constructor.
  - unfold len. simpl. lia.
Defined.

Lemma re_add_moves_to_end_witness :
  let s := add_all ["first"; "second"] (fresh 2) in
  (_entries (exec (add "first") s) = ["second"; "first"] /\
   len (_entries (exec (add "first") s)) <= len (_entries s)) /\
  result length (add_all ["first"; "second"; "second"; "first"] (fresh 10))
  = Normal 2.
Proof.
  intros s. split.
  - assert (Hin : exists x, x ∈ _entries s /\ strict_eq x "first" = true).
    { exists "first". split; [constructor|reflexivity]. }
    assert (Hle : len (_entries s) <= 2) by (unfold len; simpl; lia).
    destruct (proj1 re_add_moves_to_end s 2 "first" eq_refl Hle eq_refl Hin)
      as (E & L & _).
    split; [exact E|exact L].
  - apply (proj2 re_add_moves_to_end (capacity 10) 10 (fresh 10) "first" "second");
      reflexivity || lia.
Defined.

Lemma add_resets_cursor_witness :
  let s := add_all ["xx"] (configured (capacity_two_chars 1) 1 initial) in
  _validate s "x" = false /\
  _index (exec (add "x") s) = 1 /\
  _entries (exec (add "x") s) = ["xx"].
Proof.
  intros s. destruct (add_resets_cursor "x" s) as (_ & I & _ & E).
  split; [reflexivity|]. split; [exact I|exact (E eq_refl)].
Defined.

Lemma cursor_always_in_range_witness :
  cursor_in_range
    (run [Add "a"; MovePrev; MovePrev; MoveNext; MoveNext; MoveNext;
          Options None; MoveLast; Add "b"; Current]
       (fresh 2)).
Proof.
  apply (cursor_always_in_range (Some (capacity 2))). reflexivity.
Defined.

Lemma only_missing_maxSize_throws_witness :
  (exists s, createHistory (Some (capacity 1)) = Normal s) /\
  (exists v, result (perform (Add "a")) (fresh 1) = Normal v).
Proof.
  destruct (@only_missing_maxSize_throws string _) as (_ & _ & Hok & Hops).
  split.
  - apply (Hok (capacity 1) 1 eq_refl).
  - apply Hops. intros options. discriminate.
Defined.

Lemma failed_reconfigure_keeps_state_witness :
  let s := add_all ["a"] (fresh 3) in
  let options :=
    Some {| maxSize := None; defaultValue := Some "none";
            validate := Some (fun _ => false) |} in
  exec (setOptions options) s = s.
Proof.
  intros s options.
  apply (failed_reconfigure_keeps_state options s InvalidConfiguration).
  reflexivity.
Defined.

(** C6: [createHistory({ maxSize: 0 })] is accepted, but the buffer does
    not stay empty: [add] evicts from the empty list, which removes
    nothing, and then pushes, so [length()] is 1 after the first valid
    [add] and stays 1. *)
Theorem maxSize_zero_holds_one_entry :
  createHistory (Some (capacity 0)) = Normal (fresh 0) /\
  result length (fresh 0) = Normal 0 /\
  result length (add_all ["a"] (fresh 0)) = Normal 1 /\
  _entries (add_all ["a"; "b"] (fresh 0)) = ["b"].
Proof. vm_compute. repeat split. Qed.

(** C7: [options] leaves entries and cursor as they are, but after it
    lowers [maxSize] from 3 to 1 on a buffer of three entries, the next
    valid [add] evicts one entry only and leaves three. *)
Theorem shrink_is_not_enforced_by_add :
  let s := add_all ["a"; "b"; "c"] (fresh 3) in
  let s' := exec (setOptions (Some (capacity 1))) s in
  createHistory (Some (capacity 3)) = Normal (fresh 3) /\
  result (setOptions (Some (capacity 1))) s = Normal tt /\
  _maxSize s' = Some 1 /\
  _entries s' = _entries s /\
  _index s' = _index s /\
  _entries (exec (add "d") s') = ["b"; "c"; "d"] /\
  result length (exec (add "d") s') = Normal 3.
Proof. vm_compute. repeat split. Qed.

(** The test "stops changing length after max of 10", which calls the
    helper three times on one buffer. *)
Example test_stops_changing_length_after_max :
  let s1 := exec (addEntries 9 9) (fresh 10) in
  let s2 := exec (addEntries 1 1) s1 in
  let s3 := exec (addEntries 1 1) s2 in
  result length s1 = Normal 9 /\
  result length s2 = Normal 10 /\
  result length s3 = Normal 10 /\
  _entries s3
  = ["entry2"; "entry3"; "entry4"; "entry5"; "entry6"; "entry7"; "entry8";
     "entry9"; "entry10"; "entry11"].
Proof. vm_compute. repeat split. Qed.

(** ** Further properties on string buffers *)

Lemma setOptions_merges_witness :
  let h := history (demo_start "") in
  _defaultValue (exec (setOptions (Some (capacity 5))) h) = Some "" /\
  _validate (exec (setOptions None) h) = _validate h.
Proof.
  intros h. split.
  - apply (proj1 (setOptions_merges (Some (capacity 5)) h)). reflexivity.
  - apply (proj1 (proj2 (setOptions_merges None h))). reflexivity.
Defined.

Lemma fresh_buffer_observations_witness :
  exists s0,
    createHistory (Some (capacity_two_chars 1)) = Normal s0 /\
    result length s0 = Normal 0 /\
    result moveNext s0 = Normal true.
Proof.
  destruct (fresh_buffer_observations (capacity_two_chars 1) 1 eq_refl)
    as (s0 & Hc & _ & _ & Hl & _ & _ & _ & _ & _ & Hn & _).
  exists s0. auto.
Defined.

Lemma add_then_prev_recalls_witness :
  result movePrev (exec (add "ls") (fresh 0)) = Normal true /\
  result current (exec movePrev (exec (add "ls") (fresh 0))) = Normal (Some "ls").
Proof. apply (add_then_prev_recalls "ls" (fresh 0)). reflexivity. Defined.

Lemma prev_walks_back_witness :
  let s := add_all ["a"; "b"; "c"] (fresh 3) in
  result current (run [MovePrev; MovePrev] s) = Normal (Some "b") /\
  result movePrev (run [MovePrev; MovePrev] s) = Normal true.
Proof.
  intros s.
  assert (Hne : _entries s <> []) by discriminate.
  assert (Hk : (1 <= 2)%nat) by lia.
  destruct (prev_walks_back 2 s eq_refl Hne Hk) as (E & _ & P).
  split; [exact E|exact P].
Defined.

Lemma next_walks_forward_witness :
  let s := run [MoveFirst] (add_all ["a"; "b"] (fresh 2)) in
  _index (run [MoveNext; MoveNext; MoveNext; MoveNext; MoveNext] s) = 2 /\
  result current (run [MoveNext; MoveNext; MoveNext; MoveNext; MoveNext] s)
  = Normal None.
Proof.
  intros s.
  assert (Hr : cursor_in_range s) by (unfold cursor_in_range, len; simpl; lia).
  destruct (next_walks_forward 5 s Hr) as (E & L).
  assert (Hk : len (_entries s) <= _index s + Z.of_nat 5)
    by (unfold len; simpl; lia).
  destruct (L Hk) as (C & _).
  split; [exact (f_equal _index E)|exact C].
Defined.

Lemma prev_next_inverse_witness :
  let s := run [MoveLast] (add_all ["a"; "b"] (fresh 2)) in
  exec moveNext (exec movePrev s) = s /\
  exec movePrev (exec moveNext (exec movePrev s)) = exec movePrev s.
Proof.
  intros s. split.
  - apply (proj1 (prev_next_inverse s)).
    vm_compute. split; (reflexivity || discriminate).
  - apply (proj2 (prev_next_inverse (exec movePrev s))).
    vm_compute. split; (reflexivity || discriminate).
Defined.

Lemma add_length_effect_witness :
  let n' := len (_entries (exec (add "a") (add_all ["x"] (fresh 0)))) in
  1 <= n' /\ n' <= 1 + 1 /\ n' <= Z.max 1 (Z.max 0 1).
Proof.
  apply (add_length_effect "a" 0 (add_all ["x"] (fresh 0))); reflexivity.
Defined.

Lemma add_new_entry_witness :
  _entries (exec (add "c") (add_all ["a"; "b"] (fresh 2))) = ["b"; "c"].
Proof.
  assert (Hd : Forall (differs_from "c") (_entries (add_all ["a"; "b"] (fresh 2))))
    by (repeat constructor).
  exact (add_new_entry "c" 2 (add_all ["a"; "b"] (fresh 2)) eq_refl eq_refl Hd).
Defined.

Lemma add_twice_witness :
  let s := add_all ["a"; "b"] (fresh 2) in
  exec (add "a") (exec (add "a") s) = exec (add "a") s.
Proof.
  intros s. apply (add_twice "a" 2 s); reflexivity.
Defined.

Lemma entries_always_distinct_witness :
  distinct_entries
    (_entries
       (run [Add "a"; Add "b"; Options (Some (capacity 1)); Add "a";
             MovePrev; Add "c"]
          (fresh 2))).
Proof.
  apply (entries_always_distinct (Some (capacity 2))). reflexivity.
Defined.

Lemma length_bounded_by_largest_maxSize_witness :
  len
    (_entries
       (run [Add "a"; Add "b"; Options (Some (capacity 3)); Add "c";
             Add "d"; Options (Some (capacity 1)); Add "e"]
          (fresh 2)))
  <= 3.
Proof.
  apply (length_bounded_by_largest_maxSize 3 (capacity 2) 2);
    [reflexivity|reflexivity|lia|lia|].
  repeat constructor; simpl; lia.
Defined.

Lemma addEntries_adds_next_names_witness :
  addEntries 3 3 (add_all ["first"] (fresh 10))
  = (Normal tt,
     add_all ["entry2"; "entry3"; "entry4"] (add_all ["first"] (fresh 10))).
Proof.
  apply (addEntries_adds_next_names 3 3 (add_all ["first"] (fresh 10))).
  simpl. lia.
Defined.

Lemma addEntries_on_fresh_witness :
  _entries (exec (addEntries 3 3) (fresh 1)) = ["entry3"] /\
  result length (exec (addEntries 3 3) (fresh 1)) = Normal 1.
Proof.
  apply (addEntries_on_fresh 3 1 3); [lia|lia|simpl; lia].
Defined.

Lemma demo_key_handling_witness :
  keypress "a" (demo_start "l") = (Normal false, demo_start "l") /\
  exists p', keypress "Enter" (demo_start "ls") = (Normal true, p') /\
             cmdInput_value p' = shown (history p').
Proof.
  split.
  - apply (proj1 (demo_key_handling "a" (demo_start "l"))).
    unfold handled_keys. rewrite !not_elem_of_cons.
    repeat split; try discriminate. apply not_elem_of_nil.
  - apply (proj2 (demo_key_handling "Enter" (demo_start "ls"))).
    unfold handled_keys. rewrite !elem_of_cons. auto 10.
Defined.

Lemma demo_enter_then_up_recalls_witness :
  let p := play [Edit "cd"; Press "Enter"; Edit "pwd"] (demo_start "") in
  cmdInput_value (play [Press "Enter"; Press "ArrowUp"] p) = "pwd".
Proof.
  apply (demo_enter_then_up_recalls "" "ArrowUp"
           [Edit "cd"; Press "Enter"; Edit "pwd"]).
  right. reflexivity.
Defined.

Lemma demo_enter_and_escape_clear_witness :
  let p := play [Edit "cd"; Press "Enter"; Press "Up"] (demo_start "") in
  cmdInput_value (act (Press "Escape") p) = "".
Proof.
  apply (demo_enter_and_escape_clear "" "Escape"
           [Edit "cd"; Press "Enter"; Press "Up"]).
  right. reflexivity.
Defined.

Lemma demo_field_shows_entry_or_nothing_witness :
  let p' := play ([Edit "cd"; Press "Enter"] ++ [Press "Up"])%list (demo_start "") in
  cmdInput_value p' = "" \/ cmdInput_value p' ∈ _entries (history p').
Proof.
  apply (demo_field_shows_entry_or_nothing "" "Up" [Edit "cd"; Press "Enter"]).
  unfold handled_keys. rewrite !elem_of_cons. auto 10.
Defined.
